(** * Huffman_Project: the coding core of [huffmanv2.py]

    A shallow embedding of the classes [HuffmanNode] and [HuffmanCoding]
    (lines 12-96 of [huffmanv2.py]) and of the two [heapq] operations they
    call, followed by the properties of frequency counting, tree merging,
    code derivation, [compress] and [decompress].

    Conventions
    - a Python [str] is a [list ascii]; a character is an [ascii];
    - a Python [int] is a [Z];
    - a reference that may be [None] to a [HuffmanNode] object is a [node];
    - the insertion-ordered dict returned by [build_frequency_dict] is an
      association list in insertion order (its [items()] order decides the
      order of the heap pushes); the dicts [codes] and [reverse_mapping],
      which are only indexed and tested for membership, are [gmap]s;
    - a method of [HuffmanCoding] is a computation in the monad [M], which
      threads the instance [self] and may raise a Python exception. *)

From Stdlib Require Import ZArith Ascii String.
From stdpp Require Import base list gmap strings.

Set Warnings "-clear-no-such-hyp".

Open Scope Z_scope.

(** ** Python values *)

Abbreviation pystr := (list ascii).

(** A string literal of the source. *)
Definition str (s : string) : pystr := list_ascii_of_string s.

(** [HuffmanNode | None].  [HuffmanNode char freq left right] is an object of
    the class; [char] is [None] for a merged node. *)
Inductive node : Type :=
| NoneNode : node
| HuffmanNode (char : option ascii) (freq : Z) (left right : node) : node.

(** Attribute [.freq] (the heap only ever holds objects, never [None]). *)
Definition freq (n : node) : Z :=
  match n with
  | NoneNode => 0
  | HuffmanNode _ f _ _ => f
  end.

(** [HuffmanNode.__lt__]: [self.freq < other.freq]. *)
Definition node_lt (self other : node) : bool := freq self <? freq other.

(** ** [heapq]

    [heappush] and [heappop] of CPython's [heapq] module, on a list used as an
    array: [_siftdown] and [_siftup] move a hole through the array and drop
    the new item in it.  The loops are bounded by the position of the hole
    ([_siftdown]) and by the length of the array ([_siftup]), which is as many
    iterations as they can make. *)
Section Heapq.
Context {A : Type} (lt : A → A → bool).

(** The [while pos > startpos] loop of [_siftdown]; the result is the heap
    after the final [heap[pos] = newitem]. *)
Fixpoint siftdown_loop (fuel : nat) (heap : list A) (startpos pos : nat)
    (newitem : A) : list A :=
  match fuel with
  | O => <[pos := newitem]> heap
  | S fuel' =>
      if bool_decide (startpos < pos)%nat then
        let parentpos := ((pos - 1) / 2)%nat in
        match heap !! parentpos with
        | Some parent =>
            if lt newitem parent then
              siftdown_loop fuel' (<[pos := parent]> heap) startpos parentpos newitem
            else <[pos := newitem]> heap
        | None => <[pos := newitem]> heap
        end
      else <[pos := newitem]> heap
  end.

Definition siftdown (heap : list A) (startpos pos : nat) : list A :=
  match heap !! pos with
  | Some newitem => siftdown_loop pos heap startpos pos newitem
  | None => heap
  end.

(** The [while childpos < endpos] loop of [_siftup]; returns the heap and
    the position of the hole when the loop ends. *)
Fixpoint siftup_loop (fuel : nat) (heap : list A) (endpos pos : nat)
    : list A * nat :=
  match fuel with
  | O => (heap, pos)
  | S fuel' =>
      let childpos := (2 * pos + 1)%nat in
      if bool_decide (childpos < endpos)%nat then
        let rightpos := (childpos + 1)%nat in
        let childpos :=
          match heap !! childpos, heap !! rightpos with
          | Some c, Some r =>
              if bool_decide (rightpos < endpos)%nat && negb (lt c r)
              then rightpos else childpos
          | _, _ => childpos
          end in
        match heap !! childpos with
        | Some child => siftup_loop fuel' (<[pos := child]> heap) endpos childpos
        | None => (heap, pos)
        end
      else (heap, pos)
  end.

Definition siftup (heap : list A) (pos : nat) : list A :=
  match heap !! pos with
  | Some newitem =>
      let '(heap1, pos1) := siftup_loop (length heap) heap (length heap) pos in
      siftdown (<[pos1 := newitem]> heap1) pos pos1
  | None => heap
  end.

(** [heapq.heappush(heap, item)]: append, then sift the new item down. *)
Definition heappush (heap : list A) (item : A) : list A :=
  siftdown (heap ++ [item]) 0 (length heap).

(** [heapq.heappop(heap)]: [None] stands for the [IndexError] of
    [heap.pop()] on an empty list. *)
Definition heappop (heap : list A) : option (A * list A) :=
  match reverse heap with
  | [] => None
  | lastelt :: rest =>
      let heap := reverse rest in
      match heap with
      | [] => Some (lastelt, [])
      | returnitem :: _ => Some (returnitem, siftup (<[0%nat := lastelt]> heap) 0)
      end
  end.
End Heapq.

(** ** Exceptions and the instance monad *)

(** The built-in exceptions the core can raise: indexing an empty list and
    indexing a dict at a missing key.  The source declares no exception class
    of its own. *)
Inductive exn : Type := IndexError | KeyError.

(** The class name of an exception, as Python prints it. *)
Definition exn_name (e : exn) : string :=
  match e with
  | IndexError => "IndexError"
  | KeyError => "KeyError"
  end.

(** The outcome of a call: a returned value, a raised exception, or
    [OutOfFuel] when the iteration budget of a loop of the model is used up
    (shown below never to happen). *)
Inductive result (A : Type) : Type :=
| Ok (a : A)
| Raise (e : exn)
| OutOfFuel.
Arguments Ok {A} a.
Arguments Raise {A} e.
Arguments OutOfFuel {A}.

(** The fields of a [HuffmanCoding] instance. *)
Record HuffmanCoding : Type := mkHuffmanCoding {
  codes : gmap ascii pystr;
  reverse_mapping : gmap pystr ascii;
  root : node
}.

(** [HuffmanCoding.__init__]. *)
Definition init : HuffmanCoding :=
  {| codes := ∅; reverse_mapping := ∅; root := NoneNode |}.

(** A method body: it receives [self] and gives an outcome and [self] as the
    call leaves it (mutations made before a [raise] stay). *)
Definition M (A : Type) : Type := HuffmanCoding → result A * HuffmanCoding.

#[global] Instance M_ret : MRet M := λ A a self, (Ok a, self).
#[global] Instance M_bind : MBind M := λ A B f m self,
  match m self with
  | (Ok a, self') => f a self'
  | (Raise e, self') => (Raise e, self')
  | (OutOfFuel, self') => (OutOfFuel, self')
  end.

(** ** [HuffmanCoding] *)

(** [frequency[char] += 1] on a [defaultdict(int)]: an existing key keeps its
    place, a new key is appended with [0 + 1]. *)
Fixpoint dict_incr (frequency : list (ascii * Z)) (char : ascii) : list (ascii * Z) :=
  match frequency with
  | [] => [(char, 0 + 1)]
  | (k, v) :: rest =>
      if decide (k = char) then (k, v + 1) :: rest
      else (k, v) :: dict_incr rest char
  end.

(** [build_frequency_dict(self, text)]. *)
Definition build_frequency_dict (text : pystr) : M (list (ascii * Z)) :=
  mret (foldl dict_incr [] text).

(** [build_heap(self, frequency)]. *)
Definition build_heap (frequency : list (ascii * Z)) : M (list node) :=
  mret (foldl (λ heap '(char, freq),
                 heappush node_lt heap (HuffmanNode (Some char) freq NoneNode NoneNode))
              [] frequency).

(** The [while len(heap) > 1] loop of [merge_nodes]; returns the list as the
    loop leaves it. *)
Fixpoint merge_loop (fuel : nat) (heap : list node) : result (list node) :=
  if bool_decide (1 < length heap)%nat then
    match fuel with
    | O => OutOfFuel
    | S fuel' =>
        match heappop node_lt heap with
        | None => Raise IndexError
        | Some (node1, heap) =>
            match heappop node_lt heap with
            | None => Raise IndexError
            | Some (node2, heap) =>
                let merged := HuffmanNode None (freq node1 + freq node2) node1 node2 in
                merge_loop fuel' (heappush node_lt heap merged)
            end
        end
    end
  else Ok heap.

(** [merge_nodes(self, heap)]: [heap[0]] raises [IndexError] on an empty
    list, before [self.root] is assigned. *)
Definition merge_nodes (heap : list node) : M node := λ self,
  match merge_loop (length heap) heap with
  | Ok heap =>
      match heap !! 0%nat with
      | Some r =>
          (Ok r, {| codes := codes self; reverse_mapping := reverse_mapping self;
                    root := r |})
      | None => (Raise IndexError, self)
      end
  | Raise e => (Raise e, self)
  | OutOfFuel => (OutOfFuel, self)
  end.

(** [self.codes[char] = code; self.reverse_mapping[code] = char]. *)
Definition assign_code (char : ascii) (current_code : pystr) : M () := λ self,
  (Ok (), {| codes := <[char := current_code]> (codes self);
             reverse_mapping := <[current_code := char]> (reverse_mapping self);
             root := root self |}).

(** [build_codes_helper(self, root, current_code)]. *)
Fixpoint build_codes_helper (root : node) (current_code : pystr) : M () :=
  match root with
  | NoneNode => mret ()
  | HuffmanNode char _ left_ right_ =>
      (match char with
       | Some c => assign_code c current_code
       | None => mret ()
       end);;
      build_codes_helper left_ (current_code ++ str "0");;
      build_codes_helper right_ (current_code ++ str "1")
  end.

(** [build_codes(self, root)]. *)
Definition build_codes (root : node) : M () := build_codes_helper root (str "").

(** ["".join(codes[char] for char in text)]: indexing a missing key raises
    [KeyError]. *)
Fixpoint encode (codes : gmap ascii pystr) (text : pystr) : result pystr :=
  match text with
  | [] => Ok []
  | char :: text' =>
      match codes !! char with
      | None => Raise KeyError
      | Some code =>
          match encode codes text' with
          | Ok encoded => Ok (code ++ encoded)
          | r => r
          end
      end
  end.

(** The expression of line 83, which reads [self.codes]. *)
Definition encoded_text (text : pystr) : M pystr := λ self,
  (encode (codes self) text, self).

(** [compress(self, text)]. *)
Definition compress (text : pystr) : M pystr :=
  frequency ← build_frequency_dict text;
  heap ← build_heap frequency;
  root ← merge_nodes heap;
  build_codes root;;
  encoded_text text.

(** One iteration of the [for bit in encoded_text] loop of [decompress], on
    the pair [(current_code, decoded_text)]. *)
Definition decompress_step (reverse_mapping : gmap pystr ascii)
    (st : pystr * pystr) (bit : ascii) : pystr * pystr :=
  let '(current_code, decoded_text) := st in
  let current_code := current_code ++ [bit] in
  match reverse_mapping !! current_code with
  | Some char => ([], decoded_text ++ [char])
  | None => (current_code, decoded_text)
  end.

(** [decompress(self, encoded_text)]. *)
Definition decompress (encoded_text : pystr) : M pystr := λ self,
  (Ok (foldl (decompress_step (reverse_mapping self)) ([], []) encoded_text).2, self).

(** [decoded = huffman.decompress(huffman.compress(text))] on one instance, as
    [handle_compression] runs it. *)
Definition roundtrip (text : pystr) : M pystr :=
  encoded ← compress text; decompress encoded.

(** ** Vocabulary of the statements *)

(** What [merge_nodes] builds: a leaf holds a character and no child, a merged
    node holds no character, two subtrees and the sum of their frequencies. *)
Inductive huffman_tree : node → Prop :=
| ht_leaf c f : huffman_tree (HuffmanNode (Some c) f NoneNode NoneNode)
| ht_merged f l r :
    huffman_tree l → huffman_tree r → f = freq l + freq r →
    huffman_tree (HuffmanNode None f l r).

(** The characters stored in a tree, in the order [build_codes_helper] meets
    them. *)
Fixpoint symbols (n : node) : list ascii :=
  match n with
  | NoneNode => []
  | HuffmanNode char _ l r =>
      match char with Some c => [c] | None => [] end ++ symbols l ++ symbols r
  end.

(** All the objects of a tree. *)
Fixpoint nodes (n : node) : list node :=
  match n with
  | NoneNode => []
  | HuffmanNode _ _ l r => n :: nodes l ++ nodes r
  end.

(** A leaf is an object without children, an internal node one with a child. *)
Definition is_leaf (n : node) : bool :=
  match n with
  | HuffmanNode _ _ NoneNode NoneNode => true
  | _ => false
  end.

Definition is_internal (n : node) : bool :=
  match n with
  | NoneNode => false
  | HuffmanNode _ _ NoneNode NoneNode => false
  | HuffmanNode _ _ _ _ => true
  end.

Definition count_leaves (n : node) : nat := length (filter is_leaf (nodes n)).
Definition count_internal (n : node) : nat := length (filter is_internal (nodes n)).

(** [build_heap] followed by [merge_nodes], as [compress] chains them. *)
Definition build_tree (frequency : list (ascii * Z)) : M node :=
  heap ← build_heap frequency; merge_nodes heap.

(** The list object that was passed to [merge_nodes], as the call leaves it:
    [heappop] and [heappush] work in place on the caller's list. *)
Definition heap_after_merge_nodes (heap : list node) : result (list node) :=
  merge_loop (length heap) heap.

Definition leaf_of (item : ascii * Z) : node :=
  HuffmanNode (Some item.1) item.2 NoneNode NoneNode.

(** The table [build_frequency_dict] returns. *)
Definition frequency_of (text : pystr) : list (ascii * Z) := foldl dict_incr [] text.

(** [frequency[char]] on an existing key, [None] on a missing one. *)
Fixpoint dict_get (frequency : list (ascii * Z)) (char : ascii) : option Z :=
  match frequency with
  | [] => None
  | (k, v) :: rest => if decide (k = char) then Some v else dict_get rest char
  end.

(** The number of occurrences of a character in a text. *)
Definition count_of (char : ascii) (text : pystr) : Z :=
  Z.of_nat (length (filter (char =.) text)).

(** The assignments [build_codes_helper] makes, in order. *)
Fixpoint code_table (n : node) (current_code : pystr) : list (ascii * pystr) :=
  match n with
  | NoneNode => []
  | HuffmanNode char _ l r =>
      match char with Some c => [(c, current_code)] | None => [] end
      ++ code_table l (current_code ++ str "0")
      ++ code_table r (current_code ++ str "1")
  end.

Definition assign (self : HuffmanCoding) (entry : ascii * pystr) : HuffmanCoding :=
  {| codes := <[entry.1 := entry.2]> (codes self);
     reverse_mapping := <[entry.2 := entry.1]> (reverse_mapping self);
     root := root self |}.

(** No key of the reverse mapping is a proper prefix of another key. *)
Definition prefix_free (rm : gmap pystr ascii) : Prop :=
  ∀ q p, is_Some (rm !! q) → is_Some (rm !! p) → q `prefix_of` p → q = p.

(** [self.root = r]. *)
Definition set_root (self : HuffmanCoding) (r : node) : HuffmanCoding :=
  {| codes := codes self; reverse_mapping := reverse_mapping self; root := r |}.

(** Attributes [.left] and [.right]. *)
Definition left_of (n : node) : node :=
  match n with
  | NoneNode => NoneNode
  | HuffmanNode _ _ l _ => l
  end.

Definition right_of (n : node) : node :=
  match n with
  | NoneNode => NoneNode
  | HuffmanNode _ _ _ r => r
  end.

(** The [(char, freq)] pairs stored in the leaves of a tree. *)
Fixpoint leaf_items (n : node) : list (ascii * Z) :=
  match n with
  | NoneNode => []
  | HuffmanNode char f l r =>
      match char with Some c => [(c, f)] | None => [] end
      ++ leaf_items l ++ leaf_items r
  end.

(** The sum of the counts of a table. *)
Definition total (frequency : list (ascii * Z)) : Z :=
  foldr (λ item acc, item.2 + acc) 0 frequency.

(** The node [merge_nodes] makes of two popped nodes. *)
Definition merged (node1 node2 : node) : node :=
  HuffmanNode None (freq node1 + freq node2) node1 node2.

(** [assembled heap r]: [r] is what is left of the nodes of [heap] after
    merging two of them at a time, in some order. *)
Inductive assembled : list node → node → Prop :=
| assembled_one r : assembled [r] r
| assembled_merge heap heap' node1 node2 rest r :
    heap ≡ₚ node1 :: node2 :: rest →
    heap' ≡ₚ merged node1 node2 :: rest →
    assembled heap' r →
    assembled heap r.

(** The number of bits of the code of a character ([0] without a code). *)
Definition code_length (codes : gmap ascii pystr) (char : ascii) : Z :=
  Z.of_nat (length (default [] (codes !! char))).

(** The sum over a table of count times code length. *)
Definition weighted_length (codes : gmap ascii pystr) (frequency : list (ascii * Z)) : Z :=
  foldr (λ item acc, item.2 * code_length codes item.1 + acc) 0 frequency.

(** The min-heap order of [heapq] on a list used as an array: no element is
    below its parent, the element at index [(i - 1) / 2]. *)
Definition heap_ordered {A} (key : A → Z) (heap : list A) : Prop :=
  ∀ i x p, (0 < i)%nat →
    heap !! i = Some x → heap !! ((i - 1) / 2)%nat = Some p → key p ≤ key x.

(** The same order around a hole at [pos]: pairs that do not touch the hole
    are in order, and the children of the hole are not below its parent. *)
Definition hole_ordered {A} (key : A → Z) (heap : list A) (pos : nat) : Prop :=
  (∀ i x p, (0 < i)%nat → i ≠ pos → ((i - 1) / 2)%nat ≠ pos →
     heap !! i = Some x → heap !! ((i - 1) / 2)%nat = Some p → key p ≤ key x) ∧
  (∀ c x g, (0 < pos)%nat → (0 < c)%nat → ((c - 1) / 2)%nat = pos →
     heap !! c = Some x → heap !! ((pos - 1) / 2)%nat = Some g → key g ≤ key x).

(** [greedy heap r]: [r] is assembled from the nodes of [heap] by merging,
    each time, a node of least frequency with a node of least frequency among
    the others. *)
Inductive greedy : list node → node → Prop :=
| greedy_one r : greedy [r] r
| greedy_merge heap heap' node1 node2 rest r :
    heap ≡ₚ node1 :: node2 :: rest →
    (∀ x, x ∈ node2 :: rest → freq node1 ≤ freq x) →
    (∀ x, x ∈ rest → freq node2 ≤ freq x) →
    heap' ≡ₚ merged node1 node2 :: rest →
    greedy heap' r →
    greedy heap r.

(** The shape of a binary tree, the depths of its leaves from left to right,
    and its height. *)
Inductive shape : Type := SLeaf | SNode (l r : shape).

Fixpoint depths (s : shape) (d : nat) : list nat :=
  match s with
  | SLeaf => [d]
  | SNode l r => depths l (S d) ++ depths r (S d)
  end.

Fixpoint height (s : shape) : nat :=
  match s with
  | SLeaf => 0
  | SNode l r => S (height l `max` height r)
  end.

(** A labelling of the leaves of a tree, as [(weight, depth)] pairs in any
    order, and its cost: the sum of weight times depth. *)
Definition cost (P : list (Z * nat)) : Z :=
  foldr (λ p acc, p.1 * Z.of_nat p.2 + acc) 0 P.

Definition realizable (P : list (Z * nat)) : Prop :=
  ∃ s, P.*2 ≡ₚ depths s 0.

(** [hmerge W c]: merging the two least weights of [W] until one is left adds
    up the merged weights to [c]. *)
Inductive hmerge : list Z → Z → Prop :=
| hmerge_one w : hmerge [w] 0
| hmerge_step W W' a b rest c :
    W ≡ₚ a :: b :: rest →
    (∀ x, x ∈ b :: rest → a ≤ x) →
    (∀ x, x ∈ rest → b ≤ x) →
    W' ≡ₚ (a + b) :: rest →
    hmerge W' c →
    hmerge W (c + a + b).

(** The shape of a tree of nodes and its leaves as [(freq, depth)] pairs. *)
Fixpoint shape_of (n : node) : shape :=
  match n with
  | NoneNode => SLeaf
  | HuffmanNode (Some _) _ _ _ => SLeaf
  | HuffmanNode None _ l r => SNode (shape_of l) (shape_of r)
  end.

Fixpoint leaf_depths (n : node) (d : nat) : list (Z * nat) :=
  match n with
  | NoneNode => []
  | HuffmanNode char f l r =>
      match char with Some _ => [(f, d)] | None => [] end
      ++ leaf_depths l (S d) ++ leaf_depths r (S d)
  end.

(** The sum of the costs of the trees of a heap. *)
Definition forest_cost (heap : list node) : Z :=
  foldr (λ t acc, cost (leaf_depths t 0) + acc) 0 heap.

(** A tree of depth at most [k] over a list of one to [2 ^ k] entries, made
    by halving the list. *)
Fixpoint balanced (k : nat) (items : list (ascii * Z)) : node :=
  match items with
  | [] => NoneNode
  | [item] => leaf_of item
  | _ =>
      match k with
      | O => NoneNode
      | S k' =>
          let h := (length items / 2)%nat in
          merged (balanced k' (take h items)) (balanced k' (drop h items))
      end
  end.

(** ** [HuffmanApp]: the handlers that call the core

    Of the window only what the handlers read and write is kept: the text of
    the input box, the state of the "Text Input" radio button, the
    [HuffmanCoding] instance, the labels and the tree window.  A label that
    shows a number or a table holds that number or table. *)

(** The message box a handler opens, if any.  [Critical e] is the box of
    ["Failed to process file: " + str(e)]; [Information] holds the two sizes
    of the "Compression Ratio" box (the quotient it also prints is a float
    and is not modelled). *)
Inductive message : Type :=
| NoMessage
| Warning (text : string)
| Critical (e : exn)
| Information (original_size compressed_size : Z).

Record HuffmanApp : Type := mkHuffmanApp {
  huffman : HuffmanCoding;
  text_input : pystr;
  radio_text : bool;
  character_count_label : nat;
  word_count_label : nat;
  frequency_label : list (ascii * Z);
  result_label : pystr;
  tree_window : option node
}.

(** A handler body: it may change the window and may let an exception
    escape. *)
Definition AM (A : Type) : Type := HuffmanApp → result A * HuffmanApp.

#[global] Instance AM_ret : MRet AM := λ A a app, (Ok a, app).
#[global] Instance AM_bind : MBind AM := λ A B f m app,
  match m app with
  | (Ok a, app') => f a app'
  | (Raise e, app') => (Raise e, app')
  | (OutOfFuel, app') => (OutOfFuel, app')
  end.

(** A call [self.huffman.method(...)]. *)
Definition call {A} (m : M A) : AM A := λ app,
  let '(r, h) := m (huffman app) in
  (r, {| huffman := h; text_input := text_input app; radio_text := radio_text app;
         character_count_label := character_count_label app;
         word_count_label := word_count_label app;
         frequency_label := frequency_label app; result_label := result_label app;
         tree_window := tree_window app |}).

(** [self.display_frequencies(frequency)]. *)
Definition display_frequencies (frequency : list (ascii * Z)) : AM () := λ app,
  (Ok (), {| huffman := huffman app; text_input := text_input app;
             radio_text := radio_text app;
             character_count_label := character_count_label app;
             word_count_label := word_count_label app;
             frequency_label := frequency; result_label := result_label app;
             tree_window := tree_window app |}).

(** [self.result_label.setText(text)]. *)
Definition set_result_label (text : pystr) : AM () := λ app,
  (Ok (), {| huffman := huffman app; text_input := text_input app;
             radio_text := radio_text app;
             character_count_label := character_count_label app;
             word_count_label := word_count_label app;
             frequency_label := frequency_label app; result_label := text;
             tree_window := tree_window app |}).

(** [handle_compression(self)]. *)
Definition handle_compression : AM message := λ app,
  if radio_text app then
    let text := text_input app in
    if bool_decide (text = []) then
      (Ok (Warning "Text input cannot be empty!"), app)
    else
      (frequency ← call (build_frequency_dict text);
       display_frequencies frequency;;
       encoded ← call (compress text);
       decoded ← call (decompress encoded);
       set_result_label (str "Compressed: " ++ take 50 encoded
                         ++ String.list_ascii_of_string ("..." ++ String "010" "Decompressed: ")
                         ++ decoded);;
       mret NoMessage) app
  else (Ok (Warning "Use the file selection button to compress a document!"), app).

(** The [try] block of [handle_file_selection], from the text that
    [read_file_content] returned: an exception of the core is caught and
    shown in a box. *)
Definition handle_file_text (text : pystr) : AM message := λ app,
  match
    (frequency ← call (build_frequency_dict text);
     display_frequencies frequency;;
     encoded ← call (compress text);
     decoded ← call (decompress encoded);
     set_result_label (str "Compressed: " ++ take 50 encoded
                       ++ String.list_ascii_of_string ("..." ++ String "010" "Decompressed: ")
                       ++ take 50 decoded ++ str "...");;
     mret NoMessage) app
  with
  | (Raise e, app') => (Ok (Critical e), app')
  | outcome => outcome
  end.

(** [show_huffman_tree(self)]: the window is made once, of the root at that
    time, and shown again afterwards. *)
Definition show_huffman_tree : AM message := λ app,
  match root (huffman app) with
  | NoneNode =>
      (Ok (Warning "No Huffman tree to display! Compress text first."), app)
  | HuffmanNode _ _ _ _ =>
      (Ok NoMessage,
       {| huffman := huffman app; text_input := text_input app;
          radio_text := radio_text app;
          character_count_label := character_count_label app;
          word_count_label := word_count_label app;
          frequency_label := frequency_label app; result_label := result_label app;
          tree_window := match tree_window app with
                         | None => Some (root (huffman app))
                         | Some window => Some window
                         end |})
  end.

(** [start_new_compression(self)]. *)
Definition start_new_compression : AM message := λ app,
  (Ok NoMessage,
   {| huffman := init; text_input := []; radio_text := radio_text app;
      character_count_label := 0; word_count_label := 0;
      frequency_label := []; result_label := str "Result: ";
      tree_window := None |}).

(** [show_compression_ratio(self)]. *)
Definition show_compression_ratio : AM message := λ app,
  if bool_decide (codes (huffman app) = ∅) then
    (Ok (Warning "No compressed data available! Compress text first."), app)
  else if radio_text app then
    let text := text_input app in
    if bool_decide (text = []) then (Ok (Warning "Text input is empty!"), app)
    else
      (let original_size := Z.of_nat (length text) * 8 in
       compressed_text ← call (compress text);
       let compressed_size := Z.of_nat (length compressed_text) in
       mret (Information original_size compressed_size)) app
  else (Ok (Warning "Compression ratio is only available for text input."), app).

(** [str.isspace] on the code points below 256. *)
Definition isspace (c : ascii) : bool :=
  let n := N_of_ascii c in
  ((9 <=? n) && (n <=? 13) || (28 <=? n) && (n <=? 32) || (n =? 133) || (n =? 160))%N.

(** [text.split()]: the maximal runs of characters that are not whitespace;
    [word] is the run being read. *)
Fixpoint split_from (word : pystr) (text : pystr) : list pystr :=
  match text with
  | [] => match word with [] => [] | _ => [word] end
  | c :: text' =>
      if isspace c then
        match word with
        | [] => split_from [] text'
        | _ => word :: split_from [] text'
        end
      else split_from (word ++ [c]) text'
  end.

Definition split (text : pystr) : list pystr := split_from [] text.

(** [update_counts(self)]. *)
Definition update_counts : AM () := λ app,
  let text := text_input app in
  (Ok (), {| huffman := huffman app; text_input := text; radio_text := radio_text app;
             character_count_label := length text;
             word_count_label := length (split text);
             frequency_label := frequency_label app; result_label := result_label app;
             tree_window := tree_window app |}).

(** The user replaces the text of the input box; [textChanged] runs
    [update_counts]. *)
Definition edit_text (text : pystr) : AM () := λ app,
  update_counts
    {| huffman := huffman app; text_input := text; radio_text := radio_text app;
       character_count_label := character_count_label app;
       word_count_label := word_count_label app;
       frequency_label := frequency_label app; result_label := result_label app;
       tree_window := tree_window app |}.

(** * Properties *)

(** ** The heap operations keep the elements *)

Section HeapqFacts.
Context {A : Type} (lt : A → A → bool).
Implicit Types (heap l : list A) (x y : A).

Lemma hole_swap l (i : nat) x y :
  (i < length l)%nat → x :: <[i := y]> l ≡ₚ y :: <[i := x]> l.
Proof.
  revert i. induction l as [|b l IH]; intros [|i] Hi; simpl in *; try lia.
  - apply perm_swap.
  - rewrite (perm_swap b x), (perm_swap b y). f_equiv. apply IH. lia.
Qed.

(** Moving the hole from [i] to [j]: the item at [j] is copied to [i]. *)
Lemma hole_move l (i j : nat) x y :
  l !! j = Some y → (i < length l)%nat →
  <[j := x]> (<[i := y]> l) ≡ₚ <[i := x]> l.
Proof.
  intros Hj Hi. destruct (decide (i = j)) as [->|Hne].
  { by rewrite list_insert_insert_eq. }
  apply (Permutation_cons_inv (a := y)).
  rewrite hole_swap by (rewrite length_insert; by eapply lookup_lt_Some).
  rewrite list_insert_insert_ne by done.
  rewrite (list_insert_id l j y) by done.
  by apply hole_swap.
Qed.

Lemma siftdown_loop_perm fuel heap startpos pos x :
  (pos < length heap)%nat →
  siftdown_loop lt fuel heap startpos pos x ≡ₚ <[pos := x]> heap.
Proof.
  revert heap pos. induction fuel as [|fuel IH]; intros heap pos Hpos; simpl; [done|].
  case_bool_decide; [|done].
  destruct (heap !! _) as [parent|] eqn:Hparent; [|done].
  destruct (lt x parent); [|done].
  rewrite IH by (rewrite length_insert; by eapply lookup_lt_Some).
  by apply hole_move.
Qed.

Lemma siftdown_perm heap startpos pos : siftdown lt heap startpos pos ≡ₚ heap.
Proof.
  unfold siftdown. destruct (heap !! pos) as [x|] eqn:Hx; [|done].
  rewrite siftdown_loop_perm by (by eapply lookup_lt_Some).
  by rewrite list_insert_id.
Qed.

Lemma siftup_loop_perm fuel heap endpos pos heap1 pos1 x :
  siftup_loop lt fuel heap endpos pos = (heap1, pos1) →
  (pos < length heap)%nat →
  <[pos1 := x]> heap1 ≡ₚ <[pos := x]> heap.
Proof.
  revert heap pos. induction fuel as [|fuel IH]; intros heap pos Hloop Hpos;
    simpl in Hloop.
  { by inversion Hloop. }
  case_bool_decide; [|by inversion Hloop].
  destruct (heap !! _) as [child|] eqn:Hchild in Hloop; [|by inversion Hloop].
  apply IH in Hloop; [|rewrite length_insert; by eapply lookup_lt_Some].
  rewrite Hloop. by apply hole_move.
Qed.

Lemma siftup_perm heap pos : siftup lt heap pos ≡ₚ heap.
Proof.
  unfold siftup. destruct (heap !! pos) as [x|] eqn:Hx; [|done].
  destruct (siftup_loop _ _ _ _ _) as [heap1 pos1] eqn:Hloop.
  rewrite siftdown_perm.
  rewrite (siftup_loop_perm _ _ _ _ _ _ _ Hloop) by (by eapply lookup_lt_Some).
  by rewrite list_insert_id.
Qed.

Lemma heappush_perm heap x : heappush lt heap x ≡ₚ x :: heap.
Proof.
  unfold heappush. rewrite siftdown_perm. by rewrite Permutation_app_comm.
Qed.

Lemma heappop_perm heap x heap' :
  heappop lt heap = Some (x, heap') → heap ≡ₚ x :: heap'.
Proof.
  unfold heappop. destruct (reverse heap) as [|lastelt rest] eqn:Hrev; [done|].
  apply (f_equal reverse) in Hrev. rewrite reverse_involutive, reverse_cons in Hrev.
  subst heap. destruct (reverse rest) as [|returnitem tl]; intros [= <- <-]; [done|].
  rewrite siftup_perm. simpl. f_equiv. by rewrite Permutation_app_comm.
Qed.

Lemma heappop_is_Some heap : heap ≠ [] → is_Some (heappop lt heap).
Proof.
  intros Hne. unfold heappop. destruct (reverse heap) as [|lastelt rest] eqn:Hrev.
  - apply (f_equal reverse) in Hrev. by rewrite reverse_involutive in Hrev.
  - destruct (reverse rest); eauto.
Qed.

Lemma heappush_length heap x : length (heappush lt heap x) = S (length heap).
Proof. by rewrite heappush_perm. Qed.

Lemma heappop_length heap x heap' :
  heappop lt heap = Some (x, heap') → length heap = S (length heap').
Proof. intros ->%heappop_perm. done. Qed.
(** The iteration bounds are never the reason a loop stops: any larger bound
    gives the same result. *)
Lemma siftdown_loop_fuel fuel fuel' heap startpos pos x :
  (pos ≤ fuel)%nat → (pos ≤ fuel')%nat →
  siftdown_loop lt fuel heap startpos pos x = siftdown_loop lt fuel' heap startpos pos x.
Proof.
  revert fuel' heap pos.
  induction fuel as [|fuel IH]; intros [|fuel'] heap pos Hf Hf';
    cbn [siftdown_loop]; try done.
  - rewrite bool_decide_eq_false_2 by lia. done.
  - rewrite bool_decide_eq_false_2 by lia. done.
  - case_bool_decide; [|done]. destruct (heap !! _) as [parent|]; [|done].
    destruct (lt x parent); [|done].
    assert ((pos - 1) / 2 ≤ pos - 1)%nat by (apply Nat.Div0.div_le_upper_bound; lia).
    apply IH; lia.
Qed.

Lemma siftup_loop_fuel fuel fuel' heap endpos pos :
  (endpos - pos ≤ fuel)%nat → (endpos - pos ≤ fuel')%nat →
  siftup_loop lt fuel heap endpos pos = siftup_loop lt fuel' heap endpos pos.
Proof.
  revert fuel' heap pos.
  induction fuel as [|fuel IH]; intros [|fuel'] heap pos Hf Hf';
    cbn [siftup_loop]; try done.
  - rewrite bool_decide_eq_false_2 by lia. done.
  - rewrite bool_decide_eq_false_2 by lia. done.
  - case_bool_decide; [|done].
    destruct (heap !! (2 * pos + 1)%nat) as [c|], (heap !! (2 * pos + 1 + 1)%nat) as [r|];
      try (destruct (_ && _)); destruct (heap !! _); try done; apply IH; lia.
Qed.
End HeapqFacts.

(** ** The shape of the merged tree *)

Lemma huffman_tree_not_None n : huffman_tree n → n ≠ NoneNode.
Proof. by destruct 1. Qed.

Lemma count_merged c f l r :
  l ≠ NoneNode →
  count_leaves (HuffmanNode c f l r) = (count_leaves l + count_leaves r)%nat ∧
  count_internal (HuffmanNode c f l r) = S (count_internal l + count_internal r).
Proof.
  intros Hl. unfold count_leaves, count_internal.
  change (nodes (HuffmanNode c f l r)) with (HuffmanNode c f l r :: nodes l ++ nodes r).
  rewrite !filter_cons. destruct l as [|cl fl ll rl]; [done|].
  cbn [is_leaf is_internal].
  rewrite (decide_False (P := false)) by (intros []).
  rewrite (decide_True (P := true)) by exact I.
  cbn [length]. by rewrite !filter_app, !length_app.
Qed.

Lemma huffman_tree_counts n :
  huffman_tree n →
  count_leaves n = length (symbols n) ∧ count_leaves n = S (count_internal n).
Proof.
  induction 1 as [c f|f l r Hl [IHl1 IHl2] Hr [IHr1 IHr2] Hf]; [by split|].
  destruct (count_merged None f l r) as [-> ->]; [by apply huffman_tree_not_None|].
  cbn [symbols app]. rewrite length_app. lia.
Qed.

Lemma huffman_tree_conserved root n c f l r :
  huffman_tree root → n ∈ nodes root → n = HuffmanNode c f l r →
  is_internal n = true → f = freq l + freq r.
Proof.
  intros Hroot. revert n c f l r.
  induction Hroot as [c0 f0|f0 l0 r0 Hl IHl Hr IHr Hf]; intros n c f l r Hin -> Hint.
  - simpl in Hin. apply list_elem_of_singleton in Hin. by inversion Hin; subst.
  - simpl in Hin. rewrite elem_of_cons, elem_of_app in Hin.
    destruct Hin as [Heq|[Hin|Hin]]; [by inversion Heq; subst|eauto..].
Qed.

(** ** [build_heap] and [merge_nodes] *)

Lemma build_heap_fold acc frequency :
  foldl (λ heap '(char, freq),
           heappush node_lt heap (HuffmanNode (Some char) freq NoneNode NoneNode))
        acc frequency ≡ₚ (leaf_of <$> frequency) ++ acc.
Proof.
  revert acc. induction frequency as [|[c f] frequency IH]; intros acc; simpl; [done|].
  rewrite IH, heappush_perm. by rewrite <-Permutation_middle.
Qed.

Lemma build_heap_perm frequency self :
  ∃ heap, build_heap frequency self = (Ok heap, self) ∧
          heap ≡ₚ leaf_of <$> frequency.
Proof.
  unfold build_heap, mret, M_ret. eexists; split; [done|].
  by rewrite build_heap_fold, app_nil_r.
Qed.

Lemma merge_loop_spec fuel heap :
  (length heap ≤ fuel)%nat → heap ≠ [] → Forall huffman_tree heap →
  ∃ root, merge_loop fuel heap = Ok [root] ∧ huffman_tree root ∧
          symbols root ≡ₚ heap ≫= symbols.
Proof.
  revert heap. induction fuel as [|fuel IH]; intros heap Hlen Hne Hall.
  { destruct heap; simpl in *; [done|lia]. }
  simpl. case_bool_decide as Hlong.
  - destruct (heappop_is_Some node_lt heap Hne) as [[node1 heap1] Hpop1].
    rewrite Hpop1. pose proof (heappop_perm _ _ _ _ Hpop1) as Hperm1.
    assert (heap1 ≠ []) as Hne1.
    { intros ->. apply Permutation_length in Hperm1. simpl in *. lia. }
    destruct (heappop_is_Some node_lt heap1 Hne1) as [[node2 heap2] Hpop2].
    rewrite Hpop2. pose proof (heappop_perm _ _ _ _ Hpop2) as Hperm2.
    rewrite Hperm1, Hperm2 in Hall.
    apply Forall_cons in Hall as [H1 Hall]. apply Forall_cons in Hall as [H2 Hall].
    destruct (IH (heappush node_lt heap2
                    (HuffmanNode None (freq node1 + freq node2) node1 node2)))
      as (root & Hrun & Hroot & Hsym).
    + rewrite heappush_length. apply Permutation_length in Hperm1, Hperm2.
      simpl in *. lia.
    + intros Hnil. apply (f_equal length) in Hnil. by rewrite heappush_length in Hnil.
    + rewrite heappush_perm. apply Forall_cons; split; [|done]. by constructor.
    + exists root. split; [done|]. split; [done|].
      rewrite Hsym, heappush_perm, Hperm1, Hperm2. simpl.
      by rewrite <-!(assoc_L (++)).
  - destruct heap as [|root [|??]]; simpl in *; [done| |lia].
    exists root. apply Forall_cons in Hall as [Hroot _].
    split; [done|]. split; [done|]. by rewrite app_nil_r.
Qed.

(** The budget [length heap] is enough for any heap. *)
Lemma merge_loop_fuel fuel heap :
  (length heap ≤ fuel)%nat → merge_loop fuel heap ≠ OutOfFuel.
Proof.
  revert heap. induction fuel as [|fuel IH]; intros heap Hlen; simpl.
  { rewrite bool_decide_eq_false_2 by lia. done. }
  case_bool_decide; [|done].
  destruct (heappop node_lt heap) as [[node1 heap1]|] eqn:Hpop1; [|done].
  destruct (heappop node_lt heap1) as [[node2 heap2]|] eqn:Hpop2; [|done].
  apply IH. rewrite heappush_length.
  apply heappop_length in Hpop1, Hpop2. lia.
Qed.

Lemma merge_nodes_terminates heap self : (merge_nodes heap self).1 ≠ OutOfFuel.
Proof.
  unfold merge_nodes. pose proof (merge_loop_fuel (length heap) heap) as Hfuel.
  destruct (merge_loop _ _) as [h| |]; [by destruct (h !! 0%nat)|done|].
  by destruct Hfuel.
Qed.

Lemma merge_loop_assembled fuel heap :
  (length heap ≤ fuel)%nat → heap ≠ [] →
  ∃ r, merge_loop fuel heap = Ok [r] ∧ assembled heap r.
Proof.
  revert heap. induction fuel as [|fuel IH]; intros heap Hlen Hne.
  { destruct heap; simpl in *; [done|lia]. }
  simpl. case_bool_decide as Hlong.
  - destruct (heappop_is_Some node_lt heap Hne) as [[node1 heap1] Hpop1].
    rewrite Hpop1. pose proof (heappop_perm _ _ _ _ Hpop1) as Hperm1.
    assert (heap1 ≠ []) as Hne1.
    { intros ->. apply Permutation_length in Hperm1. simpl in *. lia. }
    destruct (heappop_is_Some node_lt heap1 Hne1) as [[node2 heap2] Hpop2].
    rewrite Hpop2. pose proof (heappop_perm _ _ _ _ Hpop2) as Hperm2.
    destruct (IH (heappush node_lt heap2 (merged node1 node2))) as (r & Hrun & Hasm).
    + rewrite heappush_length. apply Permutation_length in Hperm1, Hperm2.
      simpl in *. lia.
    + intros Hnil. apply (f_equal length) in Hnil. by rewrite heappush_length in Hnil.
    + exists r. split; [done|].
      eapply (assembled_merge heap _ node1 node2 heap2); [|apply heappush_perm|done].
      by rewrite Hperm1, Hperm2.
  - destruct heap as [|r [|??]]; simpl in *; [done| |lia].
    exists r. split; [done|]. constructor.
Qed.

(** [merge_nodes] on any list: the loop leaves exactly one node in a
    non-empty one. *)
Lemma merge_nodes_spec heap self :
  (heap = [] ∧ merge_nodes heap self = (Raise IndexError, self)) ∨
  (heap ≠ [] ∧ ∃ r, merge_nodes heap self = (Ok r, set_root self r) ∧
                    merge_loop (length heap) heap = Ok [r] ∧ assembled heap r).
Proof.
  destruct heap as [|x heap]; [by left|]. right. split; [done|].
  destruct (merge_loop_assembled (length (x :: heap)) (x :: heap)) as (r & Hrun & Hasm);
    [done..|].
  exists r. unfold merge_nodes. by rewrite Hrun.
Qed.

(** [build_tree] on a non-empty table returns a tree over the keys of the
    table and stores it in [self.root]. *)
Lemma build_tree_spec frequency self :
  frequency ≠ [] →
  ∃ root, build_tree frequency self =
            (Ok root, {| codes := codes self;
                         reverse_mapping := reverse_mapping self; root := root |}) ∧
          huffman_tree root ∧ symbols root ≡ₚ frequency.*1 ∧
          (∀ item, frequency = [item] → root = leaf_of item).
Proof.
  intros Hne. destruct (build_heap_perm frequency self) as (heap & Hheap & Hperm).
  unfold build_tree, mbind, M_bind. rewrite Hheap.
  destruct (merge_loop_spec (length heap) heap) as (root & Hloop & Hroot & Hsym).
  - done.
  - intros ->. apply Permutation_length in Hperm. rewrite length_fmap in Hperm.
    destruct frequency; simpl in *; [done|lia].
  - rewrite Hperm. apply Forall_fmap, Forall_forall. intros [c f] _. constructor.
  - exists root. unfold merge_nodes. rewrite Hloop. simpl.
    split; [done|]. split; [done|]. split.
    + rewrite Hsym, Hperm. clear. induction frequency as [|[c f] ? IH]; [done|].
      simpl. by rewrite IH.
    + intros item ->. apply Permutation_singleton_r in Hperm. subst heap.
      simpl in Hloop. by inversion Hloop.
Qed.

(** ** The frequency table *)

Lemma dict_incr_keys frequency char :
  (dict_incr frequency char).*1 =
  if decide (char ∈ frequency.*1) then frequency.*1 else frequency.*1 ++ [char].
Proof.
  induction frequency as [|[k v] frequency IH].
  { cbn [dict_incr fmap list_fmap]. case_decide as Hin; [|done].
    by apply elem_of_nil in Hin. }
  cbn [dict_incr]. rewrite fmap_cons. cbn [fst].
  destruct (decide (k = char)) as [->|Hne].
  - rewrite decide_True; [done|]. apply elem_of_cons; auto.
  - rewrite fmap_cons, IH. cbn [fst].
    destruct (decide (char ∈ frequency.*1)) as [Hin|Hin].
    + rewrite decide_True; [done|]. apply elem_of_cons; auto.
    + rewrite decide_False; [done|]. rewrite elem_of_cons. naive_solver.
Qed.

Lemma foldl_dict_incr_keys frequency text :
  NoDup frequency.*1 →
  NoDup (foldl dict_incr frequency text).*1 ∧
  ∀ c, c ∈ (foldl dict_incr frequency text).*1 ↔ c ∈ frequency.*1 ∨ c ∈ text.
Proof.
  revert frequency. induction text as [|char text IH]; intros frequency Hnd; simpl.
  { split; [done|]. intros c. rewrite elem_of_nil. naive_solver. }
  destruct (IH (dict_incr frequency char)) as [IH1 IH2].
  - rewrite dict_incr_keys. case_decide; [done|].
    apply NoDup_app. split; [done|]. split; [|apply NoDup_singleton].
    intros x Hx ->%list_elem_of_singleton. done.
  - split; [done|]. intros c. rewrite IH2, dict_incr_keys, elem_of_cons.
    case_decide; [naive_solver|]. rewrite elem_of_app, list_elem_of_singleton.
    naive_solver.
Qed.

(** The keys of the table are the distinct characters of the text. *)
Lemma frequency_of_keys text :
  NoDup (frequency_of text).*1 ∧ ∀ c, c ∈ (frequency_of text).*1 ↔ c ∈ text.
Proof.
  destruct (foldl_dict_incr_keys [] text) as [Hnd Hin]; [apply NoDup_nil_2|].
  split; [done|]. intros c. rewrite Hin, elem_of_nil. naive_solver.
Qed.

Lemma frequency_of_nil text : frequency_of text = [] ↔ text = [].
Proof.
  split; [|by intros ->]. intros Hnil. destruct text as [|c text]; [done|].
  destruct (frequency_of_keys (c :: text)) as [_ Hin].
  specialize (Hin c). rewrite Hnil in Hin. simpl in Hin.
  rewrite elem_of_nil, elem_of_cons in Hin. naive_solver.
Qed.

Lemma dict_get_incr frequency k c :
  dict_get (dict_incr frequency k) c =
  if decide (k = c) then Some (default 0 (dict_get frequency k) + 1)
  else dict_get frequency c.
Proof.
  induction frequency as [|[k0 v0] frequency IH]; cbn [dict_incr dict_get].
  { by destruct (decide (k = c)). }
  destruct (decide (k0 = k)) as [->|Hk0]; cbn [dict_get].
  - by destruct (decide (k = c)).
  - rewrite IH. destruct (decide (k = c)) as [->|Hkc]; [|done].
    by rewrite decide_False.
Qed.

Lemma count_of_cons c char text :
  count_of c (char :: text) = (if decide (c = char) then 1 else 0) + count_of c text.
Proof.
  unfold count_of. rewrite filter_cons. destruct (decide (c = char)); simpl; lia.
Qed.

Lemma count_of_pos c text : c ∈ text → 1 ≤ count_of c text.
Proof.
  induction text as [|char text IH]; intros Hin; [by apply elem_of_nil in Hin|].
  rewrite count_of_cons. unfold count_of in *.
  destruct (decide (c = char)); [lia|].
  apply elem_of_cons in Hin as [?|Hin]; [done|]. apply IH in Hin. lia.
Qed.

Lemma count_of_absent c text : c ∉ text → count_of c text = 0.
Proof.
  induction text as [|char text IH]; intros Hin; [done|].
  apply not_elem_of_cons in Hin as [Hne Hin].
  rewrite count_of_cons, decide_False, IH by done. done.
Qed.

Lemma dict_get_foldl frequency text c :
  dict_get (foldl dict_incr frequency text) c =
  if decide (c ∈ text) then Some (default 0 (dict_get frequency c) + count_of c text)
  else dict_get frequency c.
Proof.
  revert frequency. induction text as [|char text IH]; intros frequency.
  { rewrite decide_False; [done|apply not_elem_of_nil]. }
  cbn [foldl]. rewrite IH, dict_get_incr, count_of_cons.
  destruct (decide (char = c)) as [->|Hne].
  - rewrite (decide_True (P := c ∈ c :: text)) by (by left).
    rewrite (decide_True (P := c = c)) by done. simpl.
    destruct (decide (c ∈ text)) as [Hin|Hin]; [f_equal; lia|].
    rewrite (count_of_absent c text Hin). f_equal; lia.
  - rewrite (decide_False (P := c = char)) by done.
    destruct (decide (c ∈ text)) as [Hin|Hin].
    + rewrite decide_True by (by right). f_equal; lia.
    + rewrite decide_False; [done|]. rewrite not_elem_of_cons. done.
Qed.

Lemma dict_get_elem_of frequency c n :
  NoDup frequency.*1 → (c, n) ∈ frequency ↔ dict_get frequency c = Some n.
Proof.
  induction frequency as [|[k v] frequency IH]; intros Hnd.
  { split; [by intros ?%elem_of_nil|done]. }
  apply NoDup_cons in Hnd as [Hk Hnd]. cbn [dict_get].
  rewrite elem_of_cons, (IH Hnd). destruct (decide (k = c)) as [->|Hne].
  - split; [|intros [= ->]; by left]. intros [[= <-]|Hget]; [done|].
    apply IH in Hget; [|done]. destruct Hk.
    apply list_elem_of_fmap. by exists (c, n).
  - split; [|by right]. by intros [[= <- <-]|?].
Qed.

(** ** The code table of a tree *)

Lemma build_codes_helper_table n current_code self :
  build_codes_helper n current_code self =
  (Ok (), foldl assign self (code_table n current_code)).
Proof.
  revert current_code self.
  induction n as [|char f l IHl r IHr]; intros current_code self; [done|].
  cbn [build_codes_helper code_table]. unfold mbind, M_bind.
  rewrite !foldl_app.
  destruct char as [c|]; cbn [assign_code mret M_ret foldl]; by rewrite IHl, IHr.
Qed.

Lemma foldl_assign_root self table : root (foldl assign self table) = root self.
Proof. revert self. induction table as [|e table IH]; intros self; [done|]. simpl. by rewrite IH. Qed.

Lemma foldl_assign_codes_other self table c :
  c ∉ table.*1 → codes (foldl assign self table) !! c = codes self !! c.
Proof.
  revert self. induction table as [|[c0 p0] table IH]; intros self Hc; [done|].
  simpl in *. apply not_elem_of_cons in Hc as [Hne Hc].
  rewrite IH by done. simpl. by rewrite lookup_insert_ne.
Qed.

Lemma foldl_assign_codes self table c p :
  NoDup table.*1 → (c, p) ∈ table → codes (foldl assign self table) !! c = Some p.
Proof.
  revert self. induction table as [|[c0 p0] table IH]; intros self Hnd Hin.
  { by apply elem_of_nil in Hin. }
  simpl in *. apply NoDup_cons in Hnd as [Hc0 Hnd].
  apply elem_of_cons in Hin as [[= <- <-]|Hin].
  - rewrite foldl_assign_codes_other by done. simpl. by rewrite lookup_insert_eq.
  - by apply IH.
Qed.

Lemma foldl_assign_reverse_other self table p :
  p ∉ table.*2 →
  reverse_mapping (foldl assign self table) !! p = reverse_mapping self !! p.
Proof.
  revert self. induction table as [|[c0 p0] table IH]; intros self Hp; [done|].
  simpl in *. apply not_elem_of_cons in Hp as [Hne Hp].
  rewrite IH by done. simpl. by rewrite lookup_insert_ne.
Qed.

Lemma foldl_assign_reverse self table c p :
  NoDup table.*2 → (c, p) ∈ table →
  reverse_mapping (foldl assign self table) !! p = Some c.
Proof.
  revert self. induction table as [|[c0 p0] table IH]; intros self Hnd Hin.
  { by apply elem_of_nil in Hin. }
  simpl in *. apply NoDup_cons in Hnd as [Hp0 Hnd].
  apply elem_of_cons in Hin as [[= <- <-]|Hin].
  - rewrite foldl_assign_reverse_other by done. simpl. by rewrite lookup_insert_eq.
  - by apply IH.
Qed.

Lemma foldl_assign_reverse_inv self table p c :
  reverse_mapping (foldl assign self table) !! p = Some c →
  (c, p) ∈ table ∨ reverse_mapping self !! p = Some c.
Proof.
  revert self. induction table as [|[c0 p0] table IH]; intros self Hp; [by right|].
  simpl in Hp. apply IH in Hp as [Hin|Hp]; [left; by right|].
  simpl in Hp. destruct (decide (p0 = p)) as [->|Hne].
  - rewrite lookup_insert_eq in Hp. inversion Hp; subst. left. by left.
  - rewrite lookup_insert_ne in Hp by done. by right.
Qed.

Lemma code_table_symbols n current_code : (code_table n current_code).*1 = symbols n.
Proof.
  revert current_code. induction n as [|char f l IHl r IHr]; intros current_code; [done|].
  cbn [code_table symbols]. rewrite !fmap_app, IHl, IHr. by destruct char.
Qed.

(** Every code assigned below a node extends the code of the node. *)
Lemma code_table_extends n current_code c p :
  (c, p) ∈ code_table n current_code → current_code `prefix_of` p.
Proof.
  revert current_code. induction n as [|char f l IHl r IHr]; intros current_code Hin.
  { by apply elem_of_nil in Hin. }
  cbn [code_table] in Hin. rewrite !elem_of_app in Hin.
  destruct Hin as [Hin|[Hin|Hin]].
  - destruct char; [|by apply elem_of_nil in Hin].
    apply list_elem_of_singleton in Hin. by inversion Hin.
  - apply IHl in Hin. etrans; [|done]. by apply prefix_app_r.
  - apply IHr in Hin. etrans; [|done]. by apply prefix_app_r.
Qed.

(** Codes below the left and the right branch of a node are incomparable. *)
Lemma branches_incomparable (current_code p1 p2 : pystr) (b1 b2 : ascii) :
  b1 ≠ b2 →
  current_code ++ [b1] `prefix_of` p1 → current_code ++ [b2] `prefix_of` p2 →
  ¬ p1 `prefix_of` p2.
Proof.
  intros Hne [k1 ->] [k2 ->] [k Hk]. rewrite <-!(assoc_L (++)) in Hk.
  apply app_inv_head in Hk. simpl in Hk. by inversion Hk.
Qed.

Lemma code_table_prefix_free n current_code c1 p1 c2 p2 :
  huffman_tree n →
  (c1, p1) ∈ code_table n current_code → (c2, p2) ∈ code_table n current_code →
  p1 `prefix_of` p2 → c1 = c2 ∧ p1 = p2.
Proof.
  intros Hn. revert current_code.
  induction Hn as [c f|f l r Hl IHl Hr IHr Hf]; intros current_code H1 H2 Hpre.
  - simpl in H1, H2. apply list_elem_of_singleton in H1, H2. by simplify_eq.
  - cbn [code_table app] in H1, H2. rewrite elem_of_app in H1, H2.
    destruct H1 as [H1|H1], H2 as [H2|H2]; [by eapply IHl| | |by eapply IHr].
    + apply code_table_extends in H1, H2.
      by destruct (branches_incomparable current_code p1 p2 "0" "1").
    + apply code_table_extends in H1, H2.
      by destruct (branches_incomparable current_code p1 p2 "1" "0").
Qed.

Lemma code_table_NoDup_codes n current_code :
  huffman_tree n → NoDup (code_table n current_code).*2.
Proof.
  intros Hn. revert current_code.
  induction Hn as [c f|f l r Hl IHl Hr IHr Hf]; intros current_code.
  { apply NoDup_singleton. }
  cbn [code_table app]. rewrite fmap_app. apply NoDup_app.
  split; [apply IHl|]. split; [|apply IHr].
  intros p ([c1 p1] & -> & H1)%list_elem_of_fmap ([c2 p2] & Heq & H2)%list_elem_of_fmap.
  simpl in Heq. subst p2. apply code_table_extends in H1, H2.
  by destruct (branches_incomparable current_code p1 p1 "0" "1").
Qed.

(** Below a merged node no code is the code of the node itself. *)
Lemma code_table_longer f l r current_code c p :
  (c, p) ∈ code_table (HuffmanNode None f l r) current_code →
  (length current_code < length p)%nat.
Proof.
  cbn [code_table app]. rewrite elem_of_app.
  intros [[k ->]%code_table_extends|[k ->]%code_table_extends];
    rewrite !length_app; simpl; lia.
Qed.

(** ** Encoding and the decoding loop *)

Lemma encode_app codes text1 text2 e1 e2 :
  encode codes text1 = Ok e1 → encode codes text2 = Ok e2 →
  encode codes (text1 ++ text2) = Ok (e1 ++ e2).
Proof.
  revert e1. induction text1 as [|c text1 IH]; intros e1 H1 H2; simpl in *.
  { by inversion H1. }
  destruct (codes !! c) as [p|]; [|done].
  destruct (encode codes text1) as [e|e|]; [|done..].
  inversion H1; subst. rewrite (IH e eq_refl H2). by rewrite (assoc_L (++)).
Qed.

Lemma encode_app_inv codes text1 text2 e :
  encode codes (text1 ++ text2) = Ok e →
  ∃ e1 e2, encode codes text1 = Ok e1 ∧ encode codes text2 = Ok e2 ∧ e = e1 ++ e2.
Proof.
  revert e. induction text1 as [|c text1 IH]; intros e He; simpl in *.
  { by exists [], e. }
  destruct (codes !! c) as [p|]; [|done].
  destruct (encode codes (text1 ++ text2)) as [e'| |]; [|done..].
  destruct (IH e' eq_refl) as (e1 & e2 & -> & -> & ->).
  injection He as <-. exists (p ++ e1), e2. by rewrite (assoc_L (++)).
Qed.

Lemma encode_total codes text :
  (∀ c, c ∈ text → is_Some (codes !! c)) →
  encode codes text = Ok (text ≫= λ c, default [] (codes !! c)).
Proof.
  induction text as [|c text IH]; intros Hall; [done|]. simpl.
  destruct (Hall c) as [p Hp]; [by left|]. rewrite Hp, IH; [done|].
  intros c' Hc'. apply Hall. by right.
Qed.

Section Decoding.
Context (rm : gmap pystr ascii).

(** While no buffer content is a key of the mapping, bits only pile up. *)
Lemma decode_pending (s buf out : pystr) :
  (∀ s1, s1 ≠ [] → s1 `prefix_of` s → rm !! (buf ++ s1) = None) →
  foldl (decompress_step rm) (buf, out) s = (buf ++ s, out).
Proof.
  revert buf. induction s as [|b s IH]; intros buf Hnone; simpl.
  { by rewrite app_nil_r. }
  rewrite (Hnone [b]); [|done|by apply prefix_cons, prefix_nil].
  rewrite IH; [by rewrite <-(assoc_L (++))|].
  intros s1 Hs1 Hpre. rewrite <-(assoc_L (++)). apply Hnone; [done|].
  by apply prefix_cons.
Qed.

(** A key none of whose proper prefixes is a key is decoded as one symbol. *)
Lemma decode_code (p out : pystr) c :
  p ≠ [] → rm !! p = Some c →
  (∀ q, q ≠ [] → q `prefix_of` p → is_Some (rm !! q) → q = p) →
  foldl (decompress_step rm) ([], out) p = ([], out ++ [c]).
Proof.
  intros Hne Hp Hfree.
  destruct (exists_last Hne) as (s & b & ->). rewrite foldl_app.
  rewrite decode_pending; simpl.
  - by rewrite Hp.
  - intros s1 Hs1 [k ->]. apply eq_None_not_Some. intros Hsome.
    apply Hfree in Hsome; [|done|by apply prefix_app_r, prefix_app_r].
    apply (f_equal length) in Hsome. rewrite !length_app in Hsome. simpl in *. lia.
Qed.
End Decoding.

Section Codec.
Context (codes : gmap ascii pystr) (rm : gmap pystr ascii).

(** Decoding undoes encoding when every symbol has a non-empty code that
    the reverse mapping sends back to it. *)
Lemma decode_encode (text out : pystr) :
  prefix_free rm →
  (∀ c, c ∈ text → ∃ p, codes !! c = Some p ∧ p ≠ [] ∧ rm !! p = Some c) →
  ∃ e, encode codes text = Ok e ∧
       foldl (decompress_step rm) ([], out) e = ([], out ++ text).
Proof.
  intros Hfree. revert out. induction text as [|c text IH]; intros out Hall.
  { exists []. by rewrite app_nil_r. }
  destruct (Hall c) as (p & Hc & Hne & Hp); [by left|].
  destruct (IH (out ++ [c])) as (e & He & Hdec).
  { intros c' Hc'. apply Hall. by right. }
  exists (p ++ e). simpl. rewrite Hc, He. split; [done|].
  rewrite foldl_app, (decode_code rm p out c), Hdec; [|done..|].
  - by rewrite <-(assoc_L (++)).
  - intros q _ Hq Hsome. apply Hfree; eauto.
Qed.

(** What the loop has emitted, re-encoded, followed by the pending buffer,
    is what the loop has read. *)
Lemma decode_consumes (b buf out e : pystr) :
  (∀ p c, rm !! p = Some c → codes !! c = Some p) →
  encode codes out = Ok e →
  ∃ e', encode codes (foldl (decompress_step rm) (buf, out) b).2 = Ok e' ∧
        e' ++ (foldl (decompress_step rm) (buf, out) b).1 = e ++ buf ++ b.
Proof.
  intros Hinv. revert buf out e. induction b as [|bit b IH]; intros buf out e He.
  { exists e. by rewrite app_nil_r. }
  simpl. destruct (rm !! (buf ++ [bit])) as [c|] eqn:Hrm.
  - destruct (IH [] (out ++ [c]) (e ++ buf ++ [bit])) as (e' & He' & Heq).
    { apply encode_app; [done|]. simpl. rewrite (Hinv _ _ Hrm). by rewrite app_nil_r. }
    exists e'. split; [done|]. rewrite Heq. simpl. by rewrite <-!(assoc_L (++)).
  - destruct (IH (buf ++ [bit]) out e He) as (e' & He' & Heq).
    exists e'. split; [done|]. rewrite Heq. by rewrite <-!(assoc_L (++)).
Qed.
End Codec.

(** ** The code book [compress] leaves in the instance *)

Lemma foldl_assign_codes_inv self table c p :
  codes (foldl assign self table) !! c = Some p →
  (c, p) ∈ table ∨ codes self !! c = Some p.
Proof.
  revert self. induction table as [|[c0 p0] table IH]; intros self Hc; [by right|].
  simpl in Hc. apply IH in Hc as [Hin|Hc]; [left; by right|].
  simpl in Hc. destruct (decide (c0 = c)) as [->|Hne].
  - rewrite lookup_insert_eq in Hc. inversion Hc; subst. left. by left.
  - rewrite lookup_insert_ne in Hc by done. by right.
Qed.

Lemma build_tree_nil self : build_tree [] self = (Raise IndexError, self).
Proof. done. Qed.

Lemma build_tree_inv frequency self r self0 :
  build_tree frequency self = (Ok r, self0) →
  frequency ≠ [] ∧ self0 = set_root self r ∧ huffman_tree r ∧
  symbols r ≡ₚ frequency.*1 ∧ (∀ item, frequency = [item] → r = leaf_of item).
Proof.
  intros Hrun. assert (frequency ≠ []) as Hne.
  { intros ->. by rewrite build_tree_nil in Hrun. }
  destruct (build_tree_spec frequency self Hne) as (r' & Hrun' & Htree & Hsym & Hone).
  rewrite Hrun' in Hrun. by simplify_eq.
Qed.

Lemma build_codes_eq r self :
  build_codes r self = (Ok (), foldl assign self (code_table r [])).
Proof. apply build_codes_helper_table. Qed.

(** [compress] on a non-empty text: the tree is built, the codes are
    assigned, the text is encoded with them. *)
Lemma compress_eq text self :
  text ≠ [] →
  ∃ r, build_tree (frequency_of text) self = (Ok r, set_root self r) ∧
       compress text self =
       (encode (codes (foldl assign (set_root self r) (code_table r []))) text,
        foldl assign (set_root self r) (code_table r [])).
Proof.
  intros Hne.
  destruct (build_tree_spec (frequency_of text) self) as (r & Hrun & _);
    [by rewrite frequency_of_nil|].
  exists r. split; [done|]. unfold build_tree in Hrun.
  unfold compress, build_frequency_dict. unfold mbind at 1. unfold M_bind at 1.
  cbn [mret M_ret]. fold (frequency_of text).
  unfold mbind, M_bind in *.
  destruct (build_heap (frequency_of text) self) as [[heap| |] self1]; [|done..].
  rewrite Hrun, build_codes_eq. done.
Qed.

(** The code book derived on a fresh instance from the tree of a dict. *)
Lemma codebook_spec frequency r self0 self :
  NoDup frequency.*1 →
  build_tree frequency init = (Ok r, self0) → build_codes r self0 = (Ok (), self) →
  huffman_tree r ∧ symbols r ≡ₚ frequency.*1 ∧
  (∀ c p, codes self !! c = Some p ↔ (c, p) ∈ code_table r []) ∧
  (∀ c p, reverse_mapping self !! p = Some c ↔ (c, p) ∈ code_table r []).
Proof.
  intros Hnd (Hne & -> & Htree & Hsym & _)%build_tree_inv Hcodes.
  rewrite build_codes_eq in Hcodes. injection Hcodes as <-.
  split; [done|]. split; [done|]. split; intros c p; split.
  - intros [?|Hc]%foldl_assign_codes_inv; [done|]. simpl in Hc.
    by rewrite lookup_empty in Hc.
  - apply foldl_assign_codes. by rewrite code_table_symbols, Hsym.
  - intros [?|Hc]%foldl_assign_reverse_inv; [done|]. simpl in Hc.
    by rewrite lookup_empty in Hc.
  - apply foldl_assign_reverse. by apply code_table_NoDup_codes.
Qed.

Lemma compress_nil self : compress [] self = (Raise IndexError, self).
Proof. done. Qed.

Lemma compress_inv text self1 encoded self :
  compress text self1 = (Ok encoded, self) →
  text ≠ [] ∧
  ∃ r self0, build_tree (frequency_of text) self1 = (Ok r, self0) ∧
             build_codes r self0 = (Ok (), self) ∧
             encode (codes self) text = Ok encoded.
Proof.
  intros Hrun. assert (text ≠ []) as Hne.
  { intros ->. by rewrite compress_nil in Hrun. }
  split; [done|]. destruct (compress_eq text self1 Hne) as (r & Htree & Hcomp).
  rewrite Hcomp in Hrun. injection Hrun as Henc Hself.
  exists r, (set_root self1 r). rewrite build_codes_eq, Hself.
  split; [done|]. split; [done|]. by rewrite <-Hself.
Qed.

(** On a fresh instance the two mappings are inverse of each other, the
    reverse mapping is prefix-free, and the codes are all empty (a tree of one
    leaf) or all non-empty. *)
Lemma fresh_codebook frequency r self0 self :
  NoDup frequency.*1 →
  build_tree frequency init = (Ok r, self0) → build_codes r self0 = (Ok (), self) →
  prefix_free (reverse_mapping self) ∧
  (∀ c p, reverse_mapping self !! p = Some c ↔ codes self !! c = Some p) ∧
  (∀ c, c ∈ frequency.*1 → is_Some (codes self !! c)) ∧
  ((2 ≤ length frequency)%nat → ∀ c p, codes self !! c = Some p → p ≠ []) ∧
  (∀ c p c' p', codes self !! c = Some p → p ≠ [] →
                codes self !! c' = Some p' → p' ≠ []).
Proof.
  intros Hnd Htree Hcodes.
  destruct (codebook_spec _ _ _ _ Hnd Htree Hcodes) as (Hr & Hsym & Hc & Hrm).
  split; [|split; [|split; [|split]]].
  - intros q p [cq Hq] [cp Hp] Hpre. apply Hrm in Hq, Hp.
    by destruct (code_table_prefix_free r [] cq q cp p).
  - intros c p. by rewrite Hc, Hrm.
  - intros c Hin. rewrite <-Hsym, <-(code_table_symbols r []) in Hin.
    apply list_elem_of_fmap in Hin as ([c' p] & -> & Hin). exists p. by apply Hc.
  - intros Hlen c p Hp ->. apply Hc in Hp.
    destruct Hr as [c0 f0|f0 l0 r0 _ _ _].
    + apply Permutation_length in Hsym. rewrite length_fmap in Hsym. simpl in Hsym. lia.
    + apply code_table_longer in Hp. simpl in Hp. lia.
  - intros c p c' p' Hp Hne Hp' ->. apply Hc in Hp, Hp'.
    destruct Hr as [c0 f0|f0 l0 r0 _ _ _].
    + simpl in Hp. apply list_elem_of_singleton in Hp. by simplify_eq.
    + apply code_table_longer in Hp'. simpl in Hp'. lia.
Qed.

(** * The claims *)

Lemma compress_Ok text self :
  text ≠ [] →
  ∃ encoded self', compress text self = (Ok encoded, self') ∧
    (∀ c, c ∈ text → is_Some (codes self' !! c)) ∧
    encoded = text ≫= λ c, default [] (codes self' !! c).
Proof.
  intros Hne. destruct (compress_eq text self Hne) as (r & Htree & Hcomp).
  apply build_tree_inv in Htree as (_ & _ & Hr & Hsym & _).
  destruct (frequency_of_keys text) as [Hnd Hkeys].
  set (self' := foldl assign (set_root self r) (code_table r [])) in *.
  assert (∀ c, c ∈ text → is_Some (codes self' !! c)) as Hall.
  { intros c Hc. apply Hkeys in Hc. rewrite <-Hsym, <-(code_table_symbols r []) in Hc.
    apply list_elem_of_fmap in Hc as ([c' p] & -> & Hin). exists p.
    apply foldl_assign_codes; [|done]. by rewrite code_table_symbols, Hsym. }
  eexists _, self'. rewrite Hcomp, (encode_total _ _ Hall). done.
Qed.

(** [compress] returns on every non-empty text, whatever the instance held
    before: each character of the text has a code afterwards and the result
    is the codes of the characters joined in order. *)
Theorem compress_returns text self :
  text ≠ [] →
  ∃ encoded self', compress text self = (Ok encoded, self') ∧
    (∀ c, c ∈ text → is_Some (codes self' !! c)) ∧
    encoded = text ≫= λ c, default [] (codes self' !! c).
Proof. apply compress_Ok. Qed.

Lemma compress_returns_witness :
  ∃ encoded self', compress (str "abc") (compress (str "ab") init).2 = (Ok encoded, self') ∧
    (∀ c, c ∈ str "abc" → is_Some (codes self' !! c)) ∧
    encoded = str "abc" ≫= λ c, default [] (codes self' !! c).
Proof. by apply compress_returns. Defined.

Lemma roundtrip_fresh text :
  (2 ≤ length (frequency_of text))%nat →
  ∃ self, roundtrip text init = (Ok text, self).
Proof.
  intros Hlen. assert (text ≠ []) as Hne.
  { intros ->. vm_compute in Hlen. lia. }
  destruct (compress_eq text init Hne) as (r & Htree & Hcomp).
  pose proof (build_codes_eq r (set_root init r)) as Hcodes.
  set (self := foldl assign (set_root init r) (code_table r [])) in *.
  destruct (frequency_of_keys text) as [Hnd Hkeys].
  destruct (fresh_codebook _ _ _ _ Hnd Htree Hcodes) as (Hfree & Hinv & Hall & Hlong & _).
  destruct (decode_encode (codes self) (reverse_mapping self) text [] Hfree)
    as (e & He & Hdec).
  { intros c Hc. destruct (Hall c) as [p Hp]; [by apply Hkeys|].
    exists p. split; [done|]. split; [by eapply Hlong|]. by apply Hinv. }
  exists self. unfold roundtrip, mbind, M_bind. rewrite Hcomp, He.
  unfold decompress. by rewrite Hdec.
Qed.

(** The round trip holds on a fresh instance for every text with at least two
    distinct characters. *)
Theorem roundtrip_distinct_symbols text :
  (2 ≤ length (frequency_of text))%nat →
  ∃ self, roundtrip text init = (Ok text, self).
Proof. apply roundtrip_fresh. Qed.

Lemma roundtrip_distinct_symbols_witness :
  ∃ self, roundtrip (str "abacabad") init = (Ok (str "abacabad"), self).
Proof. apply (roundtrip_distinct_symbols (str "abacabad")). vm_compute. lia. Defined.

Lemma frequency_of_spec text c n self :
  build_frequency_dict text self = (Ok (frequency_of text), self) ∧
  ((c, n) ∈ frequency_of text ↔ c ∈ text ∧ n = count_of c text) ∧
  ((c, n) ∈ frequency_of text → 1 ≤ n).
Proof.
  split; [done|].
  destruct (frequency_of_keys text) as [Hnd _].
  assert ((c, n) ∈ frequency_of text ↔ c ∈ text ∧ n = count_of c text) as Hiff.
  { rewrite (dict_get_elem_of _ _ _ Hnd). unfold frequency_of.
    rewrite dict_get_foldl. simpl. destruct (decide (c ∈ text)) as [Hin|Hin].
    - split; [intros [= <-]; split; [done|lia]|]. by intros [_ ->].
    - split; [done|]. by intros [? _]. }
  split; [done|]. intros [Hin ->]%Hiff. by apply count_of_pos.
Qed.

(** The frequency table holds exactly the characters of the text, each with
    its number of occurrences, which is at least one. *)
Theorem frequency_of_counts text c n self :
  build_frequency_dict text self = (Ok (frequency_of text), self) ∧
  ((c, n) ∈ frequency_of text ↔ c ∈ text ∧ n = count_of c text) ∧
  ((c, n) ∈ frequency_of text → 1 ≤ n).
Proof. apply frequency_of_spec. Qed.

(** The worked example of the text ["abacabad"]: the table is
    [{a: 4, b: 2, c: 1, d: 1}], [a] gets the shortest code, [c] and [d] the
    two longest, of equal length, and the round trip gives the text back. *)
Theorem abacabad_example :
  let self := (compress (str "abacabad") init).2 in
  frequency_of (str "abacabad") =
    [("a"%char, 4); ("b"%char, 2); ("c"%char, 1); ("d"%char, 1)] ∧
  length <$> codes self !! "a"%char = Some 1%nat ∧
  length <$> codes self !! "b"%char = Some 2%nat ∧
  length <$> codes self !! "c"%char = Some 3%nat ∧
  length <$> codes self !! "d"%char = Some 3%nat ∧
  (compress (str "abacabad") init).1 = Ok (str "01001100100111") ∧
  (roundtrip (str "abacabad") init).1 = Ok (str "abacabad").
Proof. cbv zeta. repeat split; by vm_compute. Qed.

(** C1 (the code departs from the claim on one distinct symbol): on a fresh
    instance the round trip of ["aaaa"] gives the empty string, not ["aaaa"]. *)
Theorem C1_roundtrip_single_symbol :
  (roundtrip (str "aaaa") init).1 = Ok (str "") ∧
  (roundtrip (str "aaaa") init).1 ≠ Ok (str "aaaa").
Proof. split; [by vm_compute|]. vm_compute. discriminate. Qed.

(** C2 (the code departs from the claim): for ["aaaa"] the table is [{a: 4}]
    and the tree a single leaf, but the leaf is given the empty code, the
    encoding is the empty string and decoding it gives the empty string. *)
Theorem C2_single_symbol_aaaa :
  frequency_of (str "aaaa") = [("a"%char, 4)] ∧
  (build_tree (frequency_of (str "aaaa")) init).1 =
    Ok (HuffmanNode (Some "a"%char) 4 NoneNode NoneNode) ∧
  codes (compress (str "aaaa") init).2 !! "a"%char = Some (str "") ∧
  (compress (str "aaaa") init).1 = Ok (str "") ∧
  (decompress (str "") (compress (str "aaaa") init).2).1 = Ok (str "").
Proof. repeat split; by vm_compute. Qed.

(** C3, counterexample: ["abc"] is compressed to ["10110"] with [a -> 10] and
    [b -> 11]; the stream cut after three bits, inside the code of [b], is
    decoded to ["a"] and nothing is raised. *)
Lemma C3_truncated_stream_returns :
  (compress (str "abc") init).1 = Ok (str "10110") ∧
  codes (compress (str "abc") init).2 !! "a"%char = Some (str "10") ∧
  codes (compress (str "abc") init).2 !! "b"%char = Some (str "11") ∧
  take 3 (str "10110") = str "101" ∧
  (decompress (str "101") (compress (str "abc") init).2).1 = Ok (str "a").
Proof. repeat split; by vm_compute. Qed.

(** C3, amended: [decompress] raises on no stream and on no instance; it
    returns what it has matched and drops the bits left in its buffer.  When
    the stream was compressed on a freshly constructed instance and is cut
    inside the code of a symbol, what it returns is exactly the symbols
    before that one. *)
Theorem C3_truncated_stream_drops_fragment text1 c text2 self0 encoded self p q :
  compress (text1 ++ c :: text2) self0 = (Ok encoded, self) →
  codes self !! c = Some p →
  q ≠ [] → q `prefix_of` p → q ≠ p →
  ∃ e1, encode (codes self) text1 = Ok e1 ∧
        e1 ++ q `prefix_of` encoded ∧
        (∃ decoded, decompress (e1 ++ q) self = (Ok decoded, self)) ∧
        (self0 = init → decompress (e1 ++ q) self = (Ok text1, self)).
Proof.
  intros (Hne & r & self1 & Htree & Hcodes & Henc)%compress_inv Hp Hq Hqp Hneq.
  destruct (encode_app_inv _ _ _ _ Henc) as (e1 & e2 & He1 & He2 & ->).
  simpl in He2. rewrite Hp in He2.
  destruct (encode (codes self) text2) as [e3| |] eqn:He3; [|done..].
  injection He2 as <-.
  exists e1. split; [done|]. split; [by apply prefix_app, prefix_app_r|].
  split; [by eexists|]. intros ->.
  destruct (frequency_of_keys (text1 ++ c :: text2)) as [Hnd Hkeys].
  destruct (fresh_codebook _ _ _ _ Hnd Htree Hcodes) as (Hfree & Hinv & Hall & _ & Hlong).
  assert (p ≠ []) as Hpne.
  { intros ->. by apply prefix_nil_inv in Hqp. }
  destruct (decode_encode (codes self) (reverse_mapping self) text1 [] Hfree)
    as (e1' & He1' & Hdec1).
  { intros c' Hc'. destruct (Hall c') as [p' Hp'].
    { apply Hkeys, elem_of_app. by left. }
    exists p'. split; [done|]. split; [|by apply Hinv].
    exact (Hlong c p c' p' Hp Hpne Hp'). }
  rewrite He1 in He1'. injection He1' as <-.
  unfold decompress. rewrite foldl_app, Hdec1, decode_pending; [done|].
  intros s1 Hs1 Hpre. apply eq_None_not_Some. intros Hsome. simpl in Hsome.
  assert (s1 = p) as ->.
  { apply Hfree; [done| |by etrans]. exists c. by apply Hinv. }
  apply Hneq. by apply (anti_symm prefix).
Qed.

Lemma C3_truncated_stream_drops_fragment_witness :
  ∃ e1, encode (codes (compress (str "abc") init).2) (str "a") = Ok e1 ∧
        e1 ++ str "1" `prefix_of` str "10110" ∧
        (∃ decoded, decompress (e1 ++ str "1") (compress (str "abc") init).2 =
                      (Ok decoded, (compress (str "abc") init).2)) ∧
        (init = init →
         decompress (e1 ++ str "1") (compress (str "abc") init).2 =
           (Ok (str "a"), (compress (str "abc") init).2)).
Proof.
  apply (C3_truncated_stream_drops_fragment
           (str "a") "b"%char (str "c") init (str "10110") _ (str "11") (str "1")).
  - by vm_compute.
  - by vm_compute.
  - done.
  - by exists (str "1").
  - done.
Defined.

(** C4, counterexample: on the empty table the tree build raises the built-in
    [IndexError]; no error named [EmptyInputError] exists. *)
Lemma C4_empty_table_raises_IndexError :
  (build_tree (frequency_of (str "")) init).1 = Raise IndexError ∧
  exn_name IndexError ≠ "EmptyInputError"%string ∧
  ∀ e, exn_name e ≠ "EmptyInputError"%string.
Proof. split; [done|]. split; [done|]. by intros []. Qed.

(** C4, amended: the frequency table of the empty text is empty (and only
    that one is), and building the tree of an empty table raises [IndexError]
    and leaves the instance as it was; it is the only table on which the
    build raises.  [compress] on the empty text raises the same. *)
Theorem C4_empty_input self :
  build_frequency_dict [] self = (Ok [], self) ∧
  (∀ text, frequency_of text = [] ↔ text = []) ∧
  build_tree [] self = (Raise IndexError, self) ∧
  (∀ frequency e self',
     build_tree frequency self = (Raise e, self') →
     frequency = [] ∧ e = IndexError ∧ self' = self) ∧
  compress [] self = (Raise IndexError, self).
Proof.
  split_and!; [done|apply frequency_of_nil|done| |done].
  intros frequency e self' Hrun. destruct frequency as [|item frequency].
  - rewrite build_tree_nil in Hrun. by simplify_eq.
  - destruct (build_tree_spec (item :: frequency) self) as (r & Hr & _); [done|].
    by rewrite Hr in Hrun.
Qed.

(** C5, counterexample: on an instance that has compressed ["ab"], deriving
    the codes of the tree of ["cde"] rewrites the reverse mapping built before
    (the key ["0"] goes from [a] to [e]) and the tree build replaces
    [self.root]; the stream of ["cde"] is then decoded to ["bebbe"]. *)
Lemma C5_stages_mutate_instance :
  let self1 := (compress (str "ab") init).2 in
  let self2 := (build_tree (frequency_of (str "cde")) self1).2 in
  let self3 := (build_codes (root self2) self2).2 in
  reverse_mapping self1 !! str "0" = Some "a"%char ∧
  reverse_mapping self3 !! str "0" = Some "e"%char ∧
  root self2 ≠ root self1 ∧
  (compress (str "cde") self1).2 = self3 ∧
  (roundtrip (str "cde") self1).1 = Ok (str "bebbe").
Proof.
  cbv zeta. split; [by vm_compute|]. split; [by vm_compute|].
  split; [vm_compute; discriminate|]. split; by vm_compute.
Qed.

(** C5, amended: frequency counting, heap building, the encoding expression
    and [decompress] leave the instance as it was.  [merge_nodes] works in
    place on the list it is given, which holds only the root afterwards, and
    assigns [self.root], nothing else of the instance.  [build_codes] leaves
    [self.root] as it is and stores, for every leaf of the tree, the code of
    the leaf in [self.codes] and its character in [self.reverse_mapping]. *)
Theorem C5_stage_effects self :
  (∀ text, (build_frequency_dict text self).2 = self) ∧
  (∀ frequency, (build_heap frequency self).2 = self) ∧
  (∀ text, (encoded_text text self).2 = self) ∧
  (∀ encoded, (decompress encoded self).2 = self) ∧
  (∀ heap r self',
     Forall (λ n, n ≠ NoneNode) heap → merge_nodes heap self = (Ok r, self') →
     heap_after_merge_nodes heap = Ok [r] ∧ self' = set_root self r) ∧
  (∀ r, huffman_tree r → NoDup (symbols r) →
        root (build_codes r self).2 = root self ∧
        ∀ c p, (c, p) ∈ code_table r [] →
               codes (build_codes r self).2 !! c = Some p ∧
               reverse_mapping (build_codes r self).2 !! p = Some c).
Proof.
  split_and!; try done.
  - intros heap r self' _ Hrun.
    destruct (merge_nodes_spec heap self) as [[_ Hraise]|(_ & r' & Hok & Hloop & _)].
    { by rewrite Hraise in Hrun. }
    rewrite Hok in Hrun. by injection Hrun as <- <-.
  - intros r Hr Hnd. rewrite build_codes_eq. split; [apply foldl_assign_root|].
    intros c p Hin. split.
    + apply foldl_assign_codes; [|done]. by rewrite code_table_symbols.
    + apply foldl_assign_reverse; [|done]. by apply code_table_NoDup_codes.
Qed.

(** C6 (the code departs from the claim on an instance used before): after
    [compress] of ["ab"], deriving on the same instance the codes of the tree
    of ["cde"] gives [c -> 10] while the code book still holds [b -> 1], a
    proper prefix of it, and [a] and [e] both have the code [0]; this is the
    code book [compress] of ["cde"] leaves. *)
Theorem C6_reused_instance_proper_prefix :
  let self1 := (compress (str "ab") init).2 in
  let self2 := (build_tree (frequency_of (str "cde")) self1).2 in
  let self3 := (build_codes (root self2) self2).2 in
  (build_tree (frequency_of (str "cde")) self1).1 = Ok (root self2) ∧
  huffman_tree (root self2) ∧
  codes self3 !! "b"%char = Some (str "1") ∧
  codes self3 !! "c"%char = Some (str "10") ∧
  str "1" `prefix_of` str "10" ∧ str "1" ≠ str "10" ∧
  codes self3 !! "a"%char = Some (str "0") ∧
  codes self3 !! "e"%char = Some (str "0") ∧
  (compress (str "cde") self1).2 = self3.
Proof.
  cbv zeta. split_and!; try by vm_compute.
  - destruct (build_tree_spec (frequency_of (str "cde")) (compress (str "ab") init).2)
      as (r & Hrun & Hr & _); [done|].
    by rewrite Hrun.
  - by exists (str "0").
Qed.

(** C7: the tree built from a non-empty frequency table exists, and every
    internal node of it stores the sum of the frequencies of its two
    children. *)
Theorem C7_frequency_conserved frequency self :
  frequency ≠ [] →
  ∃ r self', build_tree frequency self = (Ok r, self') ∧
    ∀ n, n ∈ nodes r → is_internal n = true →
         freq n = freq (left_of n) + freq (right_of n).
Proof.
  intros Hne. destruct (build_tree_spec frequency self Hne) as (r & Hrun & Hr & _).
  eexists r, _. split; [done|]. intros [|c f l r'] Hin Hint; [done|].
  by eapply huffman_tree_conserved.
Qed.

Lemma C7_frequency_conserved_witness :
  ∃ r self',
    build_tree [("a"%char, 4); ("b"%char, 2); ("c"%char, 1); ("d"%char, 1)] init
      = (Ok r, self') ∧
    ∀ n, n ∈ nodes r → is_internal n = true →
         freq n = freq (left_of n) + freq (right_of n).
Proof. by apply C7_frequency_conserved. Defined.

(** C8: the tree built from a table of [N >= 1] entries has [N] leaves and
    [N - 1] internal nodes; for [N = 1] it is the leaf of the only entry,
    without children. *)
Theorem C8_leaf_and_internal_counts frequency self :
  (1 ≤ length frequency)%nat →
  ∃ r self', build_tree frequency self = (Ok r, self') ∧
    count_leaves r = length frequency ∧
    count_internal r = (length frequency - 1)%nat ∧
    (length frequency = 1%nat →
     is_leaf r = true ∧ left_of r = NoneNode ∧ right_of r = NoneNode ∧
     count_internal r = 0%nat).
Proof.
  intros Hlen. destruct (build_tree_spec frequency self) as (r & Hrun & Hr & Hsym & Hone).
  { intros ->. simpl in Hlen. lia. }
  destruct (huffman_tree_counts r Hr) as [Hleaves Hint].
  apply Permutation_length in Hsym. rewrite length_fmap in Hsym.
  eexists r, _. split; [done|]. split; [lia|]. split; [lia|].
  intros H1. destruct frequency as [|item [|??]]; simpl in H1; try lia.
  by rewrite (Hone item eq_refl).
Qed.

Lemma C8_leaf_and_internal_counts_witness :
  ∃ r self',
    build_tree [("a"%char, 4); ("b"%char, 2); ("c"%char, 1); ("d"%char, 1)] init
      = (Ok r, self') ∧
    count_leaves r = 4%nat ∧ count_internal r = 3%nat ∧
    (4%nat = 1%nat →
     is_leaf r = true ∧ left_of r = NoneNode ∧ right_of r = NoneNode ∧
     count_internal r = 0%nat).
Proof.
  apply (C8_leaf_and_internal_counts
           [("a"%char, 4); ("b"%char, 2); ("c"%char, 1); ("d"%char, 1)] init).
  simpl. lia.
Defined.



(** C10: for the code book derived on a fresh instance from the tree of a
    frequency table and for every string [b], [decompress b] returns, and its
    output re-encoded with that code book is a prefix of [b]. *)
Theorem C10_decompress_consumes_prefix frequency r self0 self b :
  NoDup frequency.*1 →
  build_tree frequency init = (Ok r, self0) → build_codes r self0 = (Ok (), self) →
  ∃ out e, decompress b self = (Ok out, self) ∧
           encode (codes self) out = Ok e ∧ e `prefix_of` b.
Proof.
  intros Hnd Htree Hcodes.
  destruct (fresh_codebook _ _ _ _ Hnd Htree Hcodes) as (_ & Hinv & _).
  destruct (decode_consumes (codes self) (reverse_mapping self) b [] [] [])
    as (e & He & Heq); [by intros p c ?%Hinv|done|].
  eexists _, e. split; [done|]. split; [done|].
  simpl in Heq. rewrite <-Heq. by apply prefix_app_r.
Qed.

Lemma C10_decompress_consumes_prefix_witness :
  ∃ out e,
    decompress (str "0111010") (compress (str "abc") init).2 =
      (Ok out, (compress (str "abc") init).2) ∧
    encode (codes (compress (str "abc") init).2) out = Ok e ∧
    e `prefix_of` str "0111010".
Proof.
  eapply (C10_decompress_consumes_prefix
            [("a"%char, 1); ("b"%char, 1); ("c"%char, 1)]).
  - by apply (bool_decide_unpack _).
  - vm_compute. reflexivity.
  - vm_compute. reflexivity.
Defined.

(** * Further properties of the coding core *)

(** ** [decompress] on any instance and any string *)

Lemma decompress_step_bounded (rm : gmap pystr ascii) (b buf out : pystr) :
  let st := foldl (decompress_step rm) (buf, out) b in
  ∃ new, st.2 = out ++ new ∧ (length new ≤ length b)%nat ∧
         ∀ c, c ∈ new → ∃ p, p ≠ [] ∧ rm !! p = Some c.
Proof.
  revert buf out. induction b as [|bit b IH]; intros buf out; simpl.
  { exists []. rewrite app_nil_r. split; [done|]. split; [done|].
    by intros c ?%elem_of_nil. }
  destruct (rm !! (buf ++ [bit])) as [c|] eqn:Hrm.
  - destruct (IH [] (out ++ [c])) as (new & -> & Hlen & Hnew).
    exists (c :: new). rewrite <-(assoc_L (++)). split; [done|].
    split; [simpl; lia|]. intros c' [->|Hc']%elem_of_cons; [|by apply Hnew].
    exists (buf ++ [bit]). split; [|done]. by destruct buf.
  - destruct (IH (buf ++ [bit]) out) as (new & -> & Hlen & Hnew).
    exists new. split; [done|]. split; [lia|done].
Qed.

(** [decompress] returns on every string and every instance, leaves the
    instance as it was, gives at most one symbol per character read, and
    only symbols that the reverse mapping holds under a non-empty key. *)
Theorem decompress_bounded (encoded : pystr) self :
  ∃ decoded, decompress encoded self = (Ok decoded, self) ∧
    (length decoded ≤ length encoded)%nat ∧
    ∀ c, c ∈ decoded → ∃ p, p ≠ [] ∧ reverse_mapping self !! p = Some c.
Proof.
  destruct (decompress_step_bounded (reverse_mapping self) encoded [] [])
    as (new & Hnew & Hlen & Hin).
  exists new. unfold decompress. by rewrite Hnew.
Qed.

(** ** The codes of the characters of the table *)

(** After the tree of a table is built and its codes derived, on any
    instance, the codes of two distinct characters of the table are not
    prefixes of each other; on a fresh instance the code book holds no other
    character. *)
Theorem codebook_prefix_free frequency self1 r self0 self c1 c2 p1 p2 :
  NoDup frequency.*1 →
  build_tree frequency self1 = (Ok r, self0) → build_codes r self0 = (Ok (), self) →
  c1 ≠ c2 → codes self !! c1 = Some p1 → codes self !! c2 = Some p2 →
  (c1 ∈ frequency.*1 ∧ c2 ∈ frequency.*1) ∨ self1 = init →
  ¬ p1 `prefix_of` p2 ∧ ¬ p2 `prefix_of` p1.
Proof.
  intros Hnd Htree Hcodes Hne H1 H2 Hcase.
  assert (huffman_tree r ∧ (c1, p1) ∈ code_table r [] ∧ (c2, p2) ∈ code_table r [])
    as (Hr & Hin1 & Hin2).
  { destruct Hcase as [[Hc1 Hc2]| ->].
    - pose proof Htree as (_ & -> & Hr & Hsym & _)%build_tree_inv.
      rewrite build_codes_eq in Hcodes. injection Hcodes as <-.
      assert (∀ c p, c ∈ frequency.*1 →
        codes (foldl assign (set_root self1 r) (code_table r [])) !! c = Some p →
        (c, p) ∈ code_table r []) as Htable.
      { intros c p Hc Hp. rewrite <-Hsym, <-(code_table_symbols r []) in Hc.
        apply list_elem_of_fmap in Hc as ([c' p'] & -> & Hin).
        rewrite (foldl_assign_codes _ _ c' p') in Hp; [by simplify_eq| |done].
        by rewrite code_table_symbols, Hsym. }
      split; [done|]. split; by apply Htable.
    - destruct (codebook_spec _ _ _ _ Hnd Htree Hcodes) as (Hr & _ & Hc & _).
      split; [done|]. split; by apply Hc. }
  split; intros Hpre.
  - by destruct (code_table_prefix_free r [] c1 p1 c2 p2).
  - by destruct (code_table_prefix_free r [] c2 p2 c1 p1).
Qed.

Lemma codebook_prefix_free_witness :
  ¬ str "10" `prefix_of` str "0" ∧ ¬ str "0" `prefix_of` str "10".
Proof.
  eapply (codebook_prefix_free [("a"%char, 1); ("b"%char, 1); ("c"%char, 1)]
            (compress (str "xyz") init).2 _ _ _ "a"%char "c"%char).
  - by apply (bool_decide_unpack _).
  - vm_compute. reflexivity.
  - vm_compute. reflexivity.
  - done.
  - by vm_compute.
  - by vm_compute.
  - left. split; by apply (bool_decide_unpack _).
Defined.

(** ** What [merge_nodes] does to any heap *)

Lemma assembled_not_None heap r :
  assembled heap r → Forall (λ n, n ≠ NoneNode) heap → r ≠ NoneNode.
Proof.
  induction 1 as [r|heap heap' node1 node2 rest r Hperm Hperm' _ IH]; intros Hall.
  { by apply Forall_cons in Hall as [? _]. }
  apply IH. rewrite Hperm'. rewrite Hperm in Hall.
  apply Forall_cons in Hall as [_ Hall]. apply Forall_cons in Hall as [_ Hall].
  by apply Forall_cons.
Qed.

(** On a list of node objects (no [None] among them) [merge_nodes] raises
    [IndexError] when the list is empty and on no other: on a non-empty list
    the loop leaves exactly one node in it, assembled from its elements, and
    that node is returned and stored in [self.root]. *)
Theorem merge_nodes_any_heap heap self :
  Forall (λ n, n ≠ NoneNode) heap →
  (heap = [] ∧ merge_nodes heap self = (Raise IndexError, self)) ∨
  (heap ≠ [] ∧ ∃ r, merge_nodes heap self = (Ok r, set_root self r) ∧
                    merge_loop (length heap) heap = Ok [r] ∧ assembled heap r ∧
                    r ≠ NoneNode).
Proof.
  intros Hall. destruct (merge_nodes_spec heap self) as [?|(Hne & r & Hrun & Hloop & Hasm)];
    [by left|].
  right. split; [done|]. exists r. split_and!; [done..|].
  by eapply assembled_not_None.
Qed.

Lemma merge_nodes_any_heap_witness :
  let heap := [HuffmanNode (Some "b"%char) 2 NoneNode NoneNode;
               HuffmanNode (Some "a"%char) 1 NoneNode NoneNode] in
  (heap = [] ∧ merge_nodes heap init = (Raise IndexError, init)) ∨
  (heap ≠ [] ∧ ∃ r, merge_nodes heap init = (Ok r, set_root init r) ∧
                    merge_loop (length heap) heap = Ok [r] ∧ assembled heap r ∧
                    r ≠ NoneNode).
Proof.
  apply (merge_nodes_any_heap
           [HuffmanNode (Some "b"%char) 2 NoneNode NoneNode;
            HuffmanNode (Some "a"%char) 1 NoneNode NoneNode] init).
  by repeat constructor.
Defined.

Lemma assembled_leaf_items heap r :
  assembled heap r → leaf_items r ≡ₚ heap ≫= leaf_items.
Proof.
  induction 1 as [r|heap heap' node1 node2 rest r Hperm Hperm' _ IH].
  { simpl. by rewrite app_nil_r. }
  rewrite IH, Hperm', Hperm. simpl. by rewrite <-!(assoc_L (++)).
Qed.

Lemma assembled_huffman_tree heap r :
  assembled heap r → Forall huffman_tree heap → huffman_tree r.
Proof.
  induction 1 as [r|heap heap' node1 node2 rest r Hperm Hperm' _ IH]; intros Hall.
  { by apply Forall_cons in Hall as [? _]. }
  apply IH. rewrite Hperm'. rewrite Hperm in Hall.
  apply Forall_cons in Hall as [H1 Hall]. apply Forall_cons in Hall as [H2 Hall].
  apply Forall_cons. split; [|done]. by constructor.
Qed.

Lemma total_app frequency1 frequency2 :
  total (frequency1 ++ frequency2) = total frequency1 + total frequency2.
Proof. induction frequency1 as [|[c k] ? IH]; simpl in *; lia. Qed.

Lemma total_perm frequency1 frequency2 :
  frequency1 ≡ₚ frequency2 → total frequency1 = total frequency2.
Proof. induction 1 as [|[??]| [??] [??] |]; simpl in *; lia. Qed.

Lemma huffman_tree_freq_total n : huffman_tree n → freq n = total (leaf_items n).
Proof.
  induction 1 as [c f|f l r _ IHl _ IHr ->]; simpl; [lia|].
  rewrite total_app. lia.
Qed.

Lemma total_dict_incr frequency char :
  total (dict_incr frequency char) = total frequency + 1.
Proof.
  induction frequency as [|[k v] frequency IH]; simpl; [done|].
  destruct (decide (k = char)); simpl; lia.
Qed.

Lemma total_frequency_of text : total (frequency_of text) = Z.of_nat (length text).
Proof.
  unfold frequency_of. rewrite <-(Z.add_0_l (Z.of_nat _)).
  change 0 with (total []) at 1. generalize (@nil (ascii * Z)) as frequency.
  induction text as [|char text IH]; intros frequency; simpl; [lia|].
  rewrite IH, total_dict_incr. lia.
Qed.

Lemma build_tree_leaf_items frequency self r self' :
  build_tree frequency self = (Ok r, self') →
  leaf_items r ≡ₚ frequency ∧ freq r = total frequency.
Proof.
  intros Hrun. pose proof Hrun as (_ & _ & Hr & _)%build_tree_inv.
  destruct (build_heap_perm frequency self) as (heap & Hheap & Hperm).
  unfold build_tree, mbind, M_bind in Hrun. rewrite Hheap in Hrun.
  destruct (merge_nodes_spec heap self) as [[-> Hraise]|(_ & r' & Hok & _ & Hasm)].
  { by rewrite Hraise in Hrun. }
  rewrite Hok in Hrun. injection Hrun as <- <-.
  assert (leaf_items r' ≡ₚ frequency) as Hleaves.
  { rewrite (assembled_leaf_items _ _ Hasm), Hperm. clear.
    induction frequency as [|[c k] frequency IH]; [done|]. simpl. by rewrite IH. }
  split; [done|]. by rewrite (huffman_tree_freq_total _ Hr), (total_perm _ _ Hleaves).
Qed.

(** The leaves of the tree built from a table are the entries of the table,
    each character with its count, and the root stores the sum of the
    counts. *)
Theorem build_tree_leaves frequency self r self' :
  build_tree frequency self = (Ok r, self') →
  leaf_items r ≡ₚ frequency ∧ freq r = total frequency.
Proof. apply build_tree_leaf_items. Qed.

Lemma build_tree_leaves_witness :
  leaf_items (HuffmanNode None 3 (HuffmanNode (Some "c"%char) 1 NoneNode NoneNode)
     (HuffmanNode None 2 (HuffmanNode (Some "a"%char) 1 NoneNode NoneNode)
                         (HuffmanNode (Some "b"%char) 1 NoneNode NoneNode)))
    ≡ₚ [("a"%char, 1); ("b"%char, 1); ("c"%char, 1)] ∧
  freq (HuffmanNode None 3 (HuffmanNode (Some "c"%char) 1 NoneNode NoneNode)
     (HuffmanNode None 2 (HuffmanNode (Some "a"%char) 1 NoneNode NoneNode)
                         (HuffmanNode (Some "b"%char) 1 NoneNode NoneNode)))
    = total [("a"%char, 1); ("b"%char, 1); ("c"%char, 1)].
Proof.
  eapply (build_tree_leaves [("a"%char, 1); ("b"%char, 1); ("c"%char, 1)] init).
  vm_compute. reflexivity.
Defined.

Lemma compress_root text self encoded self' :
  compress text self = (Ok encoded, self') →
  freq (root self') = Z.of_nat (length text).
Proof.
  intros (Hne & r & self0 & Htree & Hcodes & _)%compress_inv.
  pose proof Htree as (_ & -> & _)%build_tree_inv.
  apply build_tree_leaf_items in Htree as [_ Hfreq].
  rewrite build_codes_eq in Hcodes. injection Hcodes as <-.
  by rewrite foldl_assign_root, <-total_frequency_of.
Qed.

(** After [compress] the root of the tree stores the length of the text. *)
Theorem compress_root_freq text self encoded self' :
  compress text self = (Ok encoded, self') →
  freq (root self') = Z.of_nat (length text).
Proof. apply compress_root. Qed.

Lemma compress_root_freq_witness :
  freq (root (compress (str "abacabad") init).2) = Z.of_nat (length (str "abacabad")).
Proof.
  eapply (compress_root_freq (str "abacabad") init).
  vm_compute. reflexivity.
Defined.

(** ** A text of one distinct character *)

Lemma bind_nil_all {A B} (f : A → list B) (l : list A) :
  (∀ x, x ∈ l → f x = []) → l ≫= f = [].
Proof.
  induction l as [|x l IH]; intros Hall; [done|]. simpl.
  rewrite (Hall x) by (by left). apply IH. intros y Hy. apply Hall. by right.
Qed.

Lemma compress_one_symbol text self :
  length (frequency_of text) = 1%nat →
  ∃ self', compress text self = (Ok [], self') ∧
           roundtrip text self = (Ok [], self').
Proof.
  intros Hone. assert (text ≠ []) as Hne by (by intros ->).
  destruct (compress_eq text self Hne) as (r & Htree & Hcomp).
  destruct (frequency_of text) as [|[c0 k0] [|??]] eqn:Hfreq; try done.
  apply build_tree_inv in Htree as (_ & _ & _ & _ & Hleaf).
  rewrite (Hleaf _ eq_refl) in Hcomp. simpl in Hcomp.
  assert (∀ c, c ∈ text → c = c0) as Hall.
  { intros c Hc. destruct (frequency_of_keys text) as [_ Hkeys].
    apply Hkeys in Hc. rewrite Hfreq in Hc. simpl in Hc.
    by apply list_elem_of_singleton in Hc. }
  rewrite encode_total in Hcomp.
  2:{ intros c ->%Hall. simpl. by rewrite lookup_insert_eq. }
  rewrite bind_nil_all in Hcomp.
  2:{ intros c ->%Hall. simpl. by rewrite lookup_insert_eq. }
  eexists. split; [done|]. unfold roundtrip, mbind, M_bind. by rewrite Hcomp.
Qed.

(** When the text has one distinct character, [compress] returns the empty
    string on any instance, and decompressing it gives the empty string. *)
Theorem compress_single_symbol text self :
  length (frequency_of text) = 1%nat →
  ∃ self', compress text self = (Ok [], self') ∧
           roundtrip text self = (Ok [], self').
Proof. apply compress_one_symbol. Qed.

Lemma compress_single_symbol_witness :
  ∃ self', compress (str "zzz") (compress (str "ab") init).2 = (Ok [], self') ∧
           roundtrip (str "zzz") (compress (str "ab") init).2 = (Ok [], self').
Proof. by apply compress_single_symbol. Defined.

(** ** Any message over the characters of the compressed text *)

(** After compressing, on a fresh instance, a text with at least two distinct
    characters, every message made of characters of that text is encoded by
    the code book and decoded back to itself. *)
Theorem codebook_roundtrip_any_message text encoded self message :
  (2 ≤ length (frequency_of text))%nat →
  compress text init = (Ok encoded, self) →
  (∀ c, c ∈ message → c ∈ text) →
  ∃ e, encoded_text message self = (Ok e, self) ∧
       decompress e self = (Ok message, self).
Proof.
  intros Hlen (Hne & r & self0 & Htree & Hcodes & _)%compress_inv Hmsg.
  destruct (frequency_of_keys text) as [Hnd Hkeys].
  destruct (fresh_codebook _ _ _ _ Hnd Htree Hcodes) as (Hfree & Hinv & Hall & Hlong & _).
  destruct (decode_encode (codes self) (reverse_mapping self) message [] Hfree)
    as (e & He & Hdec).
  { intros c Hc. destruct (Hall c) as [p Hp]; [by apply Hkeys, Hmsg|].
    exists p. split; [done|]. split; [by eapply Hlong|]. by apply Hinv. }
  exists e. unfold encoded_text, decompress. by rewrite He, Hdec.
Qed.

Lemma codebook_roundtrip_any_message_witness :
  ∃ e, encoded_text (str "cabbage") (compress (str "abcdefg") init).2
         = (Ok e, (compress (str "abcdefg") init).2) ∧
       decompress e (compress (str "abcdefg") init).2
         = (Ok (str "cabbage"), (compress (str "abcdefg") init).2).
Proof.
  eapply (codebook_roundtrip_any_message (str "abcdefg")).
  - vm_compute. lia.
  - vm_compute. reflexivity.
  - intros c Hc. vm_compute in Hc. vm_compute.
    repeat (apply elem_of_cons in Hc as [->|Hc]; [set_solver|]).
    by apply elem_of_nil in Hc.
Defined.

(** ** Compressing the same text again *)

Lemma HuffmanCoding_eq (s1 s2 : HuffmanCoding) :
  codes s1 = codes s2 → reverse_mapping s1 = reverse_mapping s2 → root s1 = root s2 →
  s1 = s2.
Proof. destruct s1, s2. simpl. by intros -> -> ->. Qed.

Lemma foldl_assign_twice self table :
  NoDup table.*1 → NoDup table.*2 →
  foldl assign (foldl assign self table) table = foldl assign self table.
Proof.
  intros Hnd1 Hnd2. apply HuffmanCoding_eq.
  - apply map_eq. intros c. destruct (decide (c ∈ table.*1)) as [Hin|Hin].
    + apply list_elem_of_fmap in Hin as ([c' p] & -> & Hin).
      by rewrite !(foldl_assign_codes _ table c' p).
    + by rewrite foldl_assign_codes_other.
  - apply map_eq. intros p. destruct (decide (p ∈ table.*2)) as [Hin|Hin].
    + apply list_elem_of_fmap in Hin as ([c p'] & -> & Hin).
      by rewrite !(foldl_assign_reverse _ table c p').
    + by rewrite foldl_assign_reverse_other.
  - by rewrite !foldl_assign_root.
Qed.

(** Compressing a text, then the same text again on the same instance, gives
    the same outcome and leaves the instance as the first call left it. *)
Theorem compress_idempotent text self :
  compress text (compress text self).2 = compress text self.
Proof.
  destruct text as [|c text]; [done|].
  destruct (compress_eq (c :: text) self) as (r & Htree & Hcomp); [done|].
  rewrite Hcomp. cbn [snd].
  set (self' := foldl assign (set_root self r) (code_table r [])).
  destruct (compress_eq (c :: text) self') as (r' & Htree' & Hcomp'); [done|].
  pose proof Htree as (_ & _ & Hr & Hsym & _)%build_tree_inv.
  assert (r' = r) as ->.
  { unfold build_tree, mbind, M_bind in Htree, Htree'.
    destruct (build_heap_perm (frequency_of (c :: text)) self) as (h & Hh & _).
    destruct (build_heap_perm (frequency_of (c :: text)) self') as (h' & Hh' & _).
    assert (h' = h) as -> by (unfold build_heap, mret, M_ret in *; congruence).
    rewrite Hh in Htree. rewrite Hh' in Htree'. unfold merge_nodes in *.
    destruct (merge_loop _ _) as [hh| |]; [|done..].
    destruct (hh !! 0%nat); by simplify_eq. }
  rewrite Hcomp'.
  assert (set_root self' r = self') as ->.
  { apply HuffmanCoding_eq; try done. unfold self'. by rewrite foldl_assign_root. }
  unfold self'. rewrite foldl_assign_twice; [done| |by apply code_table_NoDup_codes].
  rewrite code_table_symbols, Hsym. apply frequency_of_keys.
Qed.

(** ** The length of the compressed string *)

Lemma weighted_length_dict_incr codes frequency char :
  weighted_length codes (dict_incr frequency char) =
  weighted_length codes frequency + code_length codes char.
Proof.
  induction frequency as [|[k v] frequency IH]; simpl; [lia|].
  destruct (decide (k = char)) as [->|Hne]; simpl; lia.
Qed.

Lemma weighted_length_foldl codes frequency text :
  weighted_length codes (foldl dict_incr frequency text) =
  weighted_length codes frequency
  + Z.of_nat (length (text ≫= λ c, default [] (codes !! c))).
Proof.
  revert frequency. induction text as [|char text IH]; intros frequency.
  { cbn [foldl]. change (length _) with 0%nat. lia. }
  cbn [foldl]. rewrite IH, weighted_length_dict_incr, bind_cons, length_app.
  unfold code_length. lia.
Qed.

Lemma code_table_depth n current_code c p :
  huffman_tree n → (c, p) ∈ code_table n current_code →
  (length p ≤ length current_code + count_internal n)%nat.
Proof.
  intros Hn. revert current_code.
  induction Hn as [c0 f0|f0 l r Hl IHl Hr IHr Hf]; intros current_code Hin.
  - simpl in Hin. apply list_elem_of_singleton in Hin. simplify_eq. lia.
  - destruct (count_merged None f0 l r) as [_ ->]; [by apply huffman_tree_not_None|].
    cbn [code_table app] in Hin. apply elem_of_app in Hin as [Hin|Hin].
    + apply IHl in Hin. rewrite length_app in Hin. simpl in Hin. lia.
    + apply IHr in Hin. rewrite length_app in Hin. simpl in Hin. lia.
Qed.

Lemma length_bind_bounds {A B} (f : A → list B) (l : list A) (lo hi : nat) :
  (∀ x, x ∈ l → lo ≤ length (f x) ≤ hi)%nat →
  (lo * length l ≤ length (l ≫= f) ≤ hi * length l)%nat.
Proof.
  induction l as [|x l IH]; intros Hall.
  { change ([] ≫= f) with (@nil B). simpl. lia. }
  rewrite bind_cons, length_app. destruct (Hall x) as [??]; [by left|].
  destruct IH as [??]; [intros y Hy; apply Hall; by right|]. simpl. lia.
Qed.

Lemma compress_length_bounds text self encoded self' :
  compress text self = (Ok encoded, self') →
  Z.of_nat (length encoded) = weighted_length (codes self') (frequency_of text) ∧
  ((2 ≤ length (frequency_of text))%nat →
   (length text ≤ length encoded)%nat ∧
   (length encoded ≤ (length (frequency_of text) - 1) * length text)%nat).
Proof.
  intros Hrun. pose proof Hrun as (Hne & r & self0 & Htree & Hcodes & Henc)%compress_inv.
  destruct (compress_Ok text self Hne) as (encoded' & self'' & Hrun' & Hall & Heq).
  rewrite Hrun in Hrun'. injection Hrun' as <- <-.
  split.
  { unfold frequency_of. rewrite weighted_length_foldl, <-Heq. simpl. lia. }
  intros Hlen.
  pose proof Htree as (_ & -> & Hr & Hsym & _)%build_tree_inv.
  rewrite build_codes_eq in Hcodes. injection Hcodes as <-.
  destruct (frequency_of_keys text) as [Hnd Hkeys].
  destruct (huffman_tree_counts r Hr) as [Hleaves Hint].
  pose proof (Permutation_length Hsym) as Hsize. rewrite length_fmap in Hsize.
  assert (∀ c, c ∈ text →
    (1 ≤ length (default [] (codes (foldl assign (set_root self r) (code_table r []))
                               !! c)) ≤ length (frequency_of text) - 1)%nat) as Hbounds.
  { intros c Hc. apply Hkeys in Hc. rewrite <-Hsym, <-(code_table_symbols r []) in Hc.
    apply list_elem_of_fmap in Hc as ([c' p] & -> & Hin).
    rewrite (foldl_assign_codes _ _ c' p); [|by rewrite code_table_symbols, Hsym|done].
    simpl. split.
    - destruct Hr as [c0 f0|f0 l0 r0 _ _ _]; [simpl in *; lia|].
      apply code_table_longer in Hin. simpl in Hin. lia.
    - apply (code_table_depth _ _ _ _ Hr) in Hin. simpl in Hin. lia. }
  apply length_bind_bounds in Hbounds. rewrite <-Heq in Hbounds. lia.
Qed.

(** The compressed string has as many bits as the sum, over the frequency
    table, of count times code length; with [N >= 2] distinct characters it
    has at least one bit and at most [N - 1] bits per character of the
    text. *)
Theorem compress_length text self encoded self' :
  compress text self = (Ok encoded, self') →
  Z.of_nat (length encoded) = weighted_length (codes self') (frequency_of text) ∧
  ((2 ≤ length (frequency_of text))%nat →
   (length text ≤ length encoded)%nat ∧
   (length encoded ≤ (length (frequency_of text) - 1) * length text)%nat).
Proof. apply compress_length_bounds. Qed.

Lemma compress_length_witness :
  Z.of_nat (length (str "01001100100111")) =
    weighted_length (codes (compress (str "abacabad") init).2)
                    (frequency_of (str "abacabad")) ∧
  ((2 ≤ length (frequency_of (str "abacabad")))%nat →
   (length (str "abacabad") ≤ length (str "01001100100111"))%nat ∧
   (length (str "01001100100111")
    ≤ (length (frequency_of (str "abacabad")) - 1) * length (str "abacabad"))%nat).
Proof.
  eapply (compress_length (str "abacabad") init).
  vm_compute. reflexivity.
Defined.

(** ** The heap order kept by [heappush] and [heappop] *)

Lemma parent_lt (i : nat) : (0 < i)%nat → ((i - 1) / 2 < i)%nat.
Proof.
  intros Hi. pose proof (Nat.div_mod_eq (i - 1) 2).
  pose proof (Nat.mod_upper_bound (i - 1) 2). lia.
Qed.

Lemma parent_child (c p : nat) :
  (0 < c)%nat → ((c - 1) / 2)%nat = p ↔ c = (2 * p + 1)%nat ∨ c = (2 * p + 1 + 1)%nat.
Proof.
  intros Hc. pose proof (Nat.div_mod_eq (c - 1) 2).
  pose proof (Nat.mod_upper_bound (c - 1) 2). split; [lia|].
  intros [->| ->].
  - replace (2 * p + 1 - 1)%nat with (p * 2)%nat by lia. by rewrite Nat.div_mul.
  - replace (2 * p + 1 + 1 - 1)%nat with (1 + p * 2)%nat by lia.
    by rewrite Nat.div_add.
Qed.

Section HeapOrder.
Context {A : Type} (key : A → Z) (lt : A → A → bool).
Context (Hlt : ∀ a b, lt a b = (key a <? key b)).
Implicit Types (heap : list A) (x y : A).

Lemma hole_ordered_insert heap pos x :
  hole_ordered key heap pos → hole_ordered key (<[pos := x]> heap) pos.
Proof.
  intros [H1 H2]. split.
  - intros i y p Hi Hne Hpar. rewrite !list_lookup_insert_ne by done. by apply H1.
  - intros c y g Hpos Hc Hpar. pose proof (parent_lt c Hc). pose proof (parent_lt pos Hpos).
    rewrite !list_lookup_insert_ne by lia. by apply H2.
Qed.

(** Dropping an item in the hole gives an ordered heap when the item is not
    below the parent of the hole and not above its children. *)
Lemma fill_hole heap pos x :
  (pos < length heap)%nat → hole_ordered key heap pos →
  (∀ p, (0 < pos)%nat → heap !! ((pos - 1) / 2)%nat = Some p → key p ≤ key x) →
  (∀ c y, (0 < c)%nat → ((c - 1) / 2)%nat = pos → heap !! c = Some y → key x ≤ key y) →
  heap_ordered key (<[pos := x]> heap).
Proof.
  intros Hpos [H1 H2] Hparent Hchild i y p Hi Hy Hp.
  pose proof (parent_lt i Hi) as Hlti.
  destruct (decide (i = pos)) as [->|Hne].
  - rewrite list_lookup_insert_eq in Hy by done. injection Hy as <-.
    rewrite list_lookup_insert_ne in Hp by lia. by apply Hparent.
  - rewrite list_lookup_insert_ne in Hy by done.
    destruct (decide (((i - 1) / 2)%nat = pos)) as [Heq|Hne'].
    + rewrite Heq, list_lookup_insert_eq in Hp by done. injection Hp as <-.
      by eapply Hchild.
    + rewrite list_lookup_insert_ne in Hp by done. by eapply H1.
Qed.

Lemma siftdown_loop_ordered fuel heap pos x :
  (pos ≤ fuel)%nat → (pos < length heap)%nat → hole_ordered key heap pos →
  (∀ c y, (0 < c)%nat → ((c - 1) / 2)%nat = pos → heap !! c = Some y → key x ≤ key y) →
  heap_ordered key (siftdown_loop lt fuel heap 0 pos x).
Proof.
  revert heap pos. induction fuel as [|fuel IH]; intros heap pos Hfuel Hpos Hhole Hchild.
  { apply fill_hole; try done. lia. }
  cbn [siftdown_loop]. case_bool_decide as H0; [|apply fill_hole; try done; lia].
  pose proof (parent_lt pos H0) as Hpar.
  destruct (heap !! ((pos - 1) / 2)%nat) as [parent|] eqn:Hparent.
  2:{ apply lookup_ge_None in Hparent. lia. }
  rewrite Hlt. destruct (Z.ltb_spec (key x) (key parent)) as [Hless|Hge].
  2:{ apply fill_hole; try done. intros p _ Hp. rewrite Hparent in Hp. by simplify_eq. }
  destruct Hhole as [H1 H2].
  assert (∀ c y, (0 < c)%nat → c ≠ pos → ((c - 1) / 2)%nat = ((pos - 1) / 2)%nat →
            heap !! c = Some y → key parent ≤ key y) as Hsibling.
  { intros c y Hc Hne Heq Hy. eapply (H1 c); try done; [lia|]. by rewrite Heq. }
  apply IH.
  - lia.
  - rewrite length_insert. lia.
  - split.
    + intros i y p Hi Hne Hne' Hy Hp.
      destruct (decide (i = pos)) as [->|Hip]; [done|].
      rewrite list_lookup_insert_ne in Hy by done.
      destruct (decide (((i - 1) / 2)%nat = pos)) as [Heq|Hpp].
      * rewrite Heq, list_lookup_insert_eq in Hp by done. injection Hp as <-.
        by eapply (H2 i).
      * rewrite list_lookup_insert_ne in Hp by done. by eapply (H1 i).
    + intros c y g Hpp Hc Heq Hy Hg.
      pose proof (parent_lt _ Hpp) as Hgp.
      rewrite list_lookup_insert_ne in Hg by lia.
      assert (key g ≤ key parent) as Hgparent.
      { eapply (H1 ((pos - 1) / 2)%nat); try done; lia. }
      destruct (decide (c = pos)) as [->|Hcp].
      * rewrite list_lookup_insert_eq in Hy by done. by simplify_eq.
      * rewrite list_lookup_insert_ne in Hy by done.
        etrans; [done|]. by eapply Hsibling.
  - intros c y Hc Heq Hy. destruct (decide (c = pos)) as [->|Hcp].
    + rewrite list_lookup_insert_eq in Hy by done. simplify_eq. lia.
    + rewrite list_lookup_insert_ne in Hy by done.
      etrans; [|by eapply Hsibling]. lia.
Qed.
Lemma siftup_loop_ordered fuel heap pos heap1 pos1 :
  siftup_loop lt fuel heap (length heap) pos = (heap1, pos1) →
  (length heap - pos ≤ fuel)%nat → (pos < length heap)%nat →
  hole_ordered key heap pos →
  hole_ordered key heap1 pos1 ∧ (pos1 < length heap1)%nat ∧
  ∀ c, (0 < c)%nat → ((c - 1) / 2)%nat = pos1 → heap1 !! c = None.
Proof.
  revert heap pos. induction fuel as [|fuel IH]; intros heap pos Hloop Hfuel Hpos Hhole.
  { lia. }
  cbn [siftup_loop] in Hloop. case_bool_decide as Hchild.
  2:{ injection Hloop as <- <-. split; [done|]. split; [done|].
      intros c Hc Hpar. apply lookup_ge_None. apply parent_child in Hpar; lia. }
  destruct (heap !! (2 * pos + 1)%nat) as [cl|] eqn:Hcl.
  2:{ apply lookup_ge_None in Hcl. lia. }
  destruct Hhole as [H1 H2].
  assert (∃ childpos child,
    (childpos = (2 * pos + 1)%nat ∨ childpos = (2 * pos + 1 + 1)%nat) ∧
    heap !! childpos = Some child ∧
    (∀ s y, (s = (2 * pos + 1)%nat ∨ s = (2 * pos + 1 + 1)%nat) →
            heap !! s = Some y → key child ≤ key y) ∧
    siftup_loop lt fuel (<[pos := child]> heap) (length heap) childpos = (heap1, pos1))
    as (childpos & child & Hwhich & Hchildv & Hsmall & Hrec).
  { destruct (heap !! (2 * pos + 1 + 1)%nat) as [cr|] eqn:Hcr.
    - rewrite Hlt in Hloop. rewrite bool_decide_eq_true_2 in Hloop
        by (apply lookup_lt_Some in Hcr; lia).
      destruct (Z.ltb_spec (key cl) (key cr)) as [Hless|Hge];
        cbn [andb negb] in Hloop.
      + rewrite Hcl in Hloop. exists (2 * pos + 1)%nat, cl.
        split; [by left|]. split; [done|]. split; [|done].
        intros s y [->| ->] Hy; simplify_eq; lia.
      + rewrite Hcr in Hloop. exists (2 * pos + 1 + 1)%nat, cr.
        split; [by right|]. split; [done|]. split; [|done].
        intros s y [->| ->] Hy; simplify_eq; lia.
    - rewrite Hcl in Hloop. exists (2 * pos + 1)%nat, cl.
      split; [by left|]. split; [done|]. split; [|done].
      intros s y [->| ->] Hy; simplify_eq; lia. }
  assert ((childpos - 1) / 2 = pos)%nat as Hparent by (apply parent_child; lia).
  rewrite <-(length_insert heap pos child) in Hrec.
  apply IH in Hrec; [done|rewrite length_insert; lia|
                     rewrite length_insert; by eapply lookup_lt_Some|].
  split.
  - intros i y p Hi Hne Hne' Hy Hp. pose proof (parent_lt i Hi).
    destruct (decide (i = pos)) as [->|Hip].
    + rewrite list_lookup_insert_eq in Hy by done. injection Hy as <-.
      rewrite list_lookup_insert_ne in Hp by lia. by eapply (H2 childpos); try lia.
    + rewrite list_lookup_insert_ne in Hy by done.
      destruct (decide (((i - 1) / 2)%nat = pos)) as [Heq|Hpp].
      * rewrite Heq, list_lookup_insert_eq in Hp by done. injection Hp as <-.
        eapply Hsmall; [|done]. by apply parent_child.
      * rewrite list_lookup_insert_ne in Hp by done. by eapply (H1 i).
  - intros c y g Hcp Hc Heq Hy Hg. pose proof (parent_lt c Hc).
    rewrite Hparent, list_lookup_insert_eq in Hg by done. injection Hg as <-.
    rewrite list_lookup_insert_ne in Hy by lia.
    eapply (H1 c); try done; [lia..|]. by rewrite Heq.
Qed.

Lemma siftup_ordered heap :
  heap ≠ [] → hole_ordered key heap 0 → heap_ordered key (siftup lt heap 0).
Proof.
  intros Hne Hhole. unfold siftup. destruct heap as [|x heap]; [done|]. cbn [lookup list_lookup].
  destruct (siftup_loop _ _ _ _ _) as [heap1 pos1] eqn:Hloop.
  apply siftup_loop_ordered in Hloop as (Hhole1 & Hpos1 & Hleaf);
    [|simpl; lia..|done].
  unfold siftdown. rewrite list_lookup_insert_eq by done.
  apply siftdown_loop_ordered.
  - done.
  - by rewrite length_insert.
  - by apply hole_ordered_insert.
  - intros c y Hc Hpar Hy. pose proof (parent_lt c Hc).
    rewrite list_lookup_insert_ne in Hy by lia. by rewrite Hleaf in Hy.
Qed.

(** [heappush] keeps a heap in order. *)
Lemma heappush_ordered heap x :
  heap_ordered key heap → heap_ordered key (heappush lt heap x).
Proof.
  intros Hheap. unfold heappush, siftdown.
  rewrite lookup_app_r, Nat.sub_diag by done. cbn [lookup list_lookup].
  apply siftdown_loop_ordered.
  - done.
  - rewrite length_app. simpl. lia.
  - split.
    + intros i y p Hi Hne Hne' Hy Hp. pose proof (parent_lt i Hi).
      apply lookup_lt_Some in Hy as Hlen. rewrite length_app in Hlen. simpl in Hlen.
      rewrite lookup_app_l in Hy, Hp by lia. by eapply Hheap.
    + intros c y g _ Hc Hpar Hy _. apply lookup_lt_Some in Hy.
      rewrite length_app in Hy. simpl in Hy. apply parent_child in Hpar; lia.
  - intros c y Hc Hpar Hy. apply lookup_lt_Some in Hy.
    rewrite length_app in Hy. simpl in Hy. apply parent_child in Hpar; lia.
Qed.

(** The first element of an ordered heap is a least one. *)
Lemma heap_ordered_root heap m :
  heap_ordered key heap → heap !! 0%nat = Some m →
  ∀ y, y ∈ heap → key m ≤ key y.
Proof.
  intros Hheap Hm y [i Hy]%list_elem_of_lookup. revert y Hy.
  induction (lt_wf i) as [i _ IH]. intros y Hy.
  destruct (decide (i = 0%nat)) as [->|Hi]; [by simplify_eq|].
  pose proof (parent_lt i ltac:(lia)) as Hpar.
  destruct (heap !! ((i - 1) / 2)%nat) as [p|] eqn:Hp.
  2:{ apply lookup_ge_None in Hp. apply lookup_lt_Some in Hy. lia. }
  etrans; [by apply (IH _ Hpar p)|]. eapply (Hheap i); [lia|done..].
Qed.

(** [heappop] returns a least element of an ordered heap and leaves the rest
    in order. *)
Lemma heappop_ordered heap x heap' :
  heap_ordered key heap → heappop lt heap = Some (x, heap') →
  heap_ordered key heap' ∧ ∀ y, y ∈ heap → key x ≤ key y.
Proof.
  intros Hheap Hpop. unfold heappop in Hpop.
  destruct (reverse heap) as [|lastelt rest] eqn:Hrev; [done|].
  apply (f_equal reverse) in Hrev. rewrite reverse_involutive, reverse_cons in Hrev.
  subst heap. destruct (reverse rest) as [|returnitem tl]; injection Hpop as <- <-.
  { split; [by intros i ?? ? ?|].
    intros y ->%list_elem_of_singleton. done. }
  split; [|by apply heap_ordered_root].
  apply siftup_ordered; [done|]. split; [|intros; lia].
  intros i y p Hi Hne Hne' Hy Hp. pose proof (parent_lt i Hi).
  destruct i as [|i]; [done|]. destruct ((S i - 1) / 2)%nat as [|j] eqn:Hj; [done|].
  cbn [insert list_insert lookup list_lookup] in Hy, Hp.
  eapply (Hheap (S i)); [lia| |].
  - cbn [app lookup list_lookup]. by apply lookup_app_l_Some.
  - rewrite Hj. cbn [app lookup list_lookup]. by apply lookup_app_l_Some.
Qed.
End HeapOrder.


(** ** [build_heap] builds a min-heap and [merge_nodes] merges least nodes *)

Lemma node_lt_freq a b : node_lt a b = (freq a <? freq b).
Proof. done. Qed.

Lemma build_heap_ordered frequency self :
  ∃ heap, build_heap frequency self = (Ok heap, self) ∧
          heap ≡ₚ leaf_of <$> frequency ∧ heap_ordered freq heap ∧
          ∀ m, heap !! 0%nat = Some m → ∀ y, y ∈ heap → freq m ≤ freq y.
Proof.
  destruct (build_heap_perm frequency self) as (heap & Hrun & Hperm).
  exists heap. split; [done|]. split; [done|].
  assert (heap_ordered freq heap) as Hheap.
  { unfold build_heap, mret, M_ret in Hrun. injection Hrun as <-. clear Hperm.
    assert (heap_ordered freq (@nil node)) as Hnil by (by intros i ?? ? ?).
    revert Hnil. generalize (@nil node) as acc.
    induction frequency as [|[c k] frequency IH]; intros acc Hacc; [done|].
    cbn [foldl]. apply IH. by apply (heappush_ordered freq node_lt node_lt_freq). }
  split; [done|]. intros m Hm. by apply (heap_ordered_root freq heap m).
Qed.

(** [build_heap] returns, in heap order on the frequencies, the leaves of the
    entries of the table. *)
Theorem build_heap_min_heap frequency self :
  ∃ heap, build_heap frequency self = (Ok heap, self) ∧
          heap ≡ₚ leaf_of <$> frequency ∧ heap_ordered freq heap ∧
          ∀ m, heap !! 0%nat = Some m → ∀ y, y ∈ heap → freq m ≤ freq y.
Proof. apply build_heap_ordered. Qed.

Lemma merge_loop_greedy fuel heap :
  (length heap ≤ fuel)%nat → heap ≠ [] → heap_ordered freq heap →
  ∃ r, merge_loop fuel heap = Ok [r] ∧ greedy heap r.
Proof.
  revert heap. induction fuel as [|fuel IH]; intros heap Hlen Hne Hheap.
  { destruct heap; simpl in *; [done|lia]. }
  simpl. case_bool_decide as Hlong.
  - destruct (heappop_is_Some node_lt heap Hne) as [[node1 heap1] Hpop1].
    rewrite Hpop1. pose proof (heappop_perm _ _ _ _ Hpop1) as Hperm1.
    destruct (heappop_ordered freq node_lt node_lt_freq _ _ _ Hheap Hpop1)
      as [Hheap1 Hmin1].
    assert (heap1 ≠ []) as Hne1.
    { intros ->. apply Permutation_length in Hperm1. simpl in *. lia. }
    destruct (heappop_is_Some node_lt heap1 Hne1) as [[node2 heap2] Hpop2].
    rewrite Hpop2. pose proof (heappop_perm _ _ _ _ Hpop2) as Hperm2.
    destruct (heappop_ordered freq node_lt node_lt_freq _ _ _ Hheap1 Hpop2)
      as [Hheap2 Hmin2].
    destruct (IH (heappush node_lt heap2 (merged node1 node2))) as (r & Hrun & Hgreedy).
    + rewrite heappush_length. apply Permutation_length in Hperm1, Hperm2.
      simpl in *. lia.
    + intros Hnil. apply (f_equal length) in Hnil. by rewrite heappush_length in Hnil.
    + by apply (heappush_ordered freq node_lt node_lt_freq).
    + exists r. split; [done|].
      eapply (greedy_merge heap _ node1 node2 heap2); [| | |apply heappush_perm|done].
      * by rewrite Hperm1, Hperm2.
      * intros x Hx. apply Hmin1. rewrite Hperm1, Hperm2. by right.
      * intros x Hx. apply Hmin2. rewrite Hperm2. by right.
  - destruct heap as [|r [|??]]; simpl in *; [done| |lia].
    exists r. split; [done|]. constructor.
Qed.

Lemma build_tree_merges_least frequency self :
  frequency ≠ [] →
  ∃ r heap, build_heap frequency self = (Ok heap, self) ∧
            build_tree frequency self = (Ok r, set_root self r) ∧
            greedy heap r ∧ heap ≡ₚ leaf_of <$> frequency.
Proof.
  intros Hne.
  destruct (build_heap_ordered frequency self) as (heap & Hheap & Hperm & Hord & _).
  destruct (merge_loop_greedy (length heap) heap) as (r & Hloop & Hgreedy); [done| |done|].
  { intros ->. apply Permutation_length in Hperm. rewrite length_fmap in Hperm.
    destruct frequency; simpl in *; [done|lia]. }
  exists r, heap. split; [done|]. split; [|done].
  unfold build_tree, mbind, M_bind. rewrite Hheap. unfold merge_nodes. by rewrite Hloop.
Qed.

(** The tree of a non-empty table is assembled from the leaves of its entries
    by always merging two nodes of least frequency. *)
Theorem build_tree_greedy frequency self :
  frequency ≠ [] →
  ∃ r heap, build_heap frequency self = (Ok heap, self) ∧
            build_tree frequency self = (Ok r, set_root self r) ∧
            greedy heap r ∧ heap ≡ₚ leaf_of <$> frequency.
Proof. apply build_tree_merges_least. Qed.

Lemma build_tree_greedy_witness :
  ∃ r heap,
    build_heap [("a"%char, 4); ("b"%char, 2); ("c"%char, 1); ("d"%char, 1)] init
      = (Ok heap, init) ∧
    build_tree [("a"%char, 4); ("b"%char, 2); ("c"%char, 1); ("d"%char, 1)] init
      = (Ok r, set_root init r) ∧
    greedy heap r ∧
    heap ≡ₚ leaf_of <$> [("a"%char, 4); ("b"%char, 2); ("c"%char, 1); ("d"%char, 1)].
Proof. by apply build_tree_greedy. Defined.


(** ** Merging least weights gives the least cost *)

Lemma cost_app P Q : cost (P ++ Q) = cost P + cost Q.
Proof. induction P as [|[w d] P IH]; simpl in *; lia. Qed.

Lemma cost_perm P Q : P ≡ₚ Q → cost P = cost Q.
Proof. induction 1 as [|[??]|[??] [??]|]; simpl in *; lia. Qed.

#[local] Instance cost_proper : Proper ((≡ₚ) ==> (=)) cost.
Proof. intros P Q. apply cost_perm. Qed.

Lemma depths_le s d : Forall (λ x, x ≤ d + height s)%nat (depths s d).
Proof.
  revert d. induction s as [|l IHl r IHr]; intros d; simpl.
  { apply Forall_singleton. lia. }
  apply Forall_app. split.
  - eapply Forall_impl; [apply IHl|]. simpl. lia.
  - eapply Forall_impl; [apply IHr|]. simpl. lia.
Qed.

(** A tree with two leaves or more has two leaves at its greatest depth that
    can be folded into their parent. *)
Lemma deepest_pair s d :
  s ≠ SLeaf →
  ∃ s' D, depths s d ≡ₚ (d + height s)%nat :: (d + height s)%nat :: D ∧
          depths s' d ≡ₚ (d + height s - 1)%nat :: D.
Proof.
  revert d. induction s as [|l IHl r IHr]; intros d Hne; [done|]. clear Hne.
  assert (∀ t, height t = 0%nat → t = SLeaf) as H0 by (intros []; [done|simpl; lia]).
  destruct (decide (height l = 0 ∧ height r = 0)%nat) as [[Hl Hr]|Hnot].
  { apply H0 in Hl, Hr. subst. exists SLeaf, []. simpl.
    replace (d + 1)%nat with (S d) by lia. replace (S d - 1)%nat with d by lia. done. }
  destruct (decide (height r ≤ height l)%nat) as [Hle|Hgt].
  - assert (l ≠ SLeaf) as Hl by (intros ->; simpl in *; lia).
    destruct (IHl (S d) Hl) as (l' & D & Hd & Hd').
    exists (SNode l' r), (D ++ depths r (S d)). simpl.
    replace (d + S (height l `max` height r))%nat with (S d + height l)%nat by lia.
    by rewrite Hd, Hd'.
  - assert (r ≠ SLeaf) as Hr by (intros ->; simpl in *; lia).
    destruct (IHr (S d) Hr) as (r' & D & Hd & Hd').
    exists (SNode l r'), (depths l (S d) ++ D). simpl.
    replace (d + S (height l `max` height r))%nat with (S d + height r)%nat by lia.
    rewrite Hd, Hd'. by rewrite <-!Permutation_middle.
Qed.

Lemma extract_depth (P : list (Z * nat)) h D :
  P.*2 ≡ₚ h :: D → ∃ x Q, P ≡ₚ (x, h) :: Q ∧ Q.*2 ≡ₚ D.
Proof.
  intros Hperm. assert (h ∈ P.*2) as Hin by (rewrite Hperm; by left).
  apply list_elem_of_fmap in Hin as ([x h'] & -> & Hin).
  apply elem_of_Permutation in Hin as [Q HQ].
  exists x, Q. split; [done|]. rewrite HQ in Hperm. simpl in Hperm.
  by apply Permutation_cons_inv in Hperm.
Qed.

(** Moving a least weight to a greatest depth does not raise the cost. *)
Lemma least_to_deepest (P Q : list (Z * nat)) x h a :
  P ≡ₚ (x, h) :: Q → Forall (λ p, p.2 ≤ h)%nat P →
  a ∈ P.*1 → (∀ w, w ∈ P.*1 → a ≤ w) →
  ∃ Q', a :: Q'.*1 ≡ₚ P.*1 ∧ Q'.*2 ≡ₚ Q.*2 ∧ cost ((a, h) :: Q') ≤ cost P.
Proof.
  intros HP Hall Ha Hmin. destruct (decide (a = x)) as [->|Hne].
  { exists Q. rewrite HP. simpl. split; [done|]. split; [done|]. lia. }
  rewrite HP in Ha. simpl in Ha. apply elem_of_cons in Ha as [?|Ha]; [done|].
  apply list_elem_of_fmap in Ha as ([a' d] & -> & Ha). simpl in *.
  apply elem_of_Permutation in Ha as [Q1 HQ1].
  exists ((x, d) :: Q1). rewrite HP, HQ1. simpl. split; [apply perm_swap|].
  split; [done|].
  assert (a' ≤ x) by (apply Hmin; rewrite HP; by left).
  assert (d ≤ h)%nat.
  { rewrite HP, HQ1 in Hall. apply Forall_cons in Hall as [_ Hall].
    by apply Forall_cons in Hall as [? _]. }
  nia.
Qed.

(** Any labelled tree over [a :: b :: rest], with [a] and [b] the two least
    weights, costs at least [a + b] more than some labelled tree over
    [(a + b) :: rest]. *)
Lemma merge_least (P : list (Z * nat)) a b rest :
  realizable P → P.*1 ≡ₚ a :: b :: rest →
  (∀ x, x ∈ b :: rest → a ≤ x) → (∀ x, x ∈ rest → b ≤ x) →
  ∃ P', realizable P' ∧ P'.*1 ≡ₚ (a + b) :: rest ∧ cost P' + a + b ≤ cost P.
Proof.
  intros [s Hs] HW Ha Hb.
  assert (s ≠ SLeaf) as Hne.
  { intros ->. simpl in Hs. apply Permutation_length in Hs, HW.
    rewrite !length_fmap in *. simpl in *. lia. }
  destruct (deepest_pair s 0 Hne) as (s' & D & Hd & Hd'). simpl in Hd, Hd'.
  assert (∀ d0, d0 ∈ depths s 0 → d0 ≤ height s)%nat as Hdl.
  { pose proof (depths_le s 0) as Hdl. rewrite Forall_forall in Hdl. done. }
  assert (Forall (λ p : Z * nat, p.2 ≤ height s)%nat P) as Hall.
  { apply Forall_forall. intros [w d0] Hin. apply Hdl. rewrite <-Hs.
    apply list_elem_of_fmap. by exists (w, d0). }
  assert (1 ≤ height s)%nat as Hh by (destruct s; simpl; [done|lia]).
  rewrite Hd in Hs. destruct (extract_depth P _ _ Hs) as (x & Q & HP & HQ).
  destruct (least_to_deepest P Q x (height s) a HP Hall) as (Q1 & HW1 & HD1 & Hc1).
  { rewrite HW. by left. }
  { intros w Hw. rewrite HW in Hw. apply elem_of_cons in Hw as [->|Hw]; [done|].
    by apply Ha. }
  rewrite HQ in HD1. destruct (extract_depth Q1 _ _ HD1) as (y & Q2 & HQ1 & HQ2).
  assert (Q1.*1 ≡ₚ b :: rest) as HW1'.
  { apply (Permutation_cons_inv (a := a)). by rewrite HW1, HW. }
  destruct (least_to_deepest Q1 Q2 y (height s) b HQ1) as (Q3 & HW3 & HD3 & Hc3).
  { apply Forall_forall. intros [w d0] Hin. apply Hdl. rewrite Hd. right.
    rewrite <-HD1. apply list_elem_of_fmap. by exists (w, d0). }
  { rewrite HW1'. by left. }
  { intros w Hw. rewrite HW1' in Hw. apply elem_of_cons in Hw as [->|Hw]; [done|].
    by apply Hb. }
  exists ((a + b, (height s - 1)%nat) :: Q3). split; [|split].
  - exists s'. simpl. by rewrite HD3, HQ2, Hd'.
  - simpl. f_equiv. apply (Permutation_cons_inv (a := b)). by rewrite HW3.
  - simpl in *. rewrite Nat2Z.inj_sub by done. nia.
Qed.

(** The cost reached by merging least weights is a lower bound for the cost
    of every labelled tree over the same weights. *)
Lemma hmerge_least W c :
  hmerge W c → ∀ P, realizable P → P.*1 ≡ₚ W → c ≤ cost P.
Proof.
  induction 1 as [w|W W' a b rest c HW Ha Hb HW' _ IH]; intros P HP HPW.
  - destruct P as [|[w' d] [|??]]; apply Permutation_length in HPW; simpl in *;
      try lia.
    destruct HP as [s Hs]. simpl in Hs.
    assert (d = 0)%nat as ->.
    { destruct s; simpl in Hs.
      - apply Permutation_singleton_l in Hs. by simplify_eq.
      - apply Permutation_length in Hs. rewrite length_app in Hs. simpl in Hs.
        assert (∀ s d, 1 ≤ length (depths s d))%nat as Hpos.
        { clear. intros s. induction s; intros d; simpl; [done|].
          rewrite length_app. specialize (IHs1 (S d)). lia. }
        pose proof (Hpos s1 1%nat). pose proof (Hpos s2 1%nat). lia. }
    lia.
  - rewrite HW in HPW.
    destruct (merge_least P a b rest HP HPW Ha Hb) as (P' & HP' & HPW' & Hcost).
    specialize (IH P' HP'). rewrite HW' in IH. specialize (IH HPW'). lia.
Qed.


(** ** The compressed string is as short as any tree allows *)

Lemma leaf_depths_shape u d :
  huffman_tree u → (leaf_depths u d).*2 = depths (shape_of u) d.
Proof.
  intros Hu. revert d. induction Hu as [c f|f l r _ IHl _ IHr _]; intros d; [done|].
  simpl. by rewrite fmap_app, IHl, IHr.
Qed.

Lemma leaf_depths_weights u d : (leaf_depths u d).*1 = (leaf_items u).*2.
Proof.
  revert d. induction u as [|char f l IHl r IHr]; intros d; [done|].
  simpl. rewrite !fmap_app, IHl, IHr. by destruct char.
Qed.

Lemma cost_leaf_depths_S u d :
  cost (leaf_depths u (S d)) = cost (leaf_depths u d) + total (leaf_items u).
Proof.
  revert d. induction u as [|char f l IHl r IHr]; intros d; [done|].
  simpl. rewrite !cost_app, !total_app, (IHl (S d)), (IHr (S d)).
  destruct char; simpl; lia.
Qed.

Lemma forest_cost_perm heap1 heap2 :
  heap1 ≡ₚ heap2 → forest_cost heap1 = forest_cost heap2.
Proof. induction 1; simpl in *; lia. Qed.

Lemma cost_merged a b :
  huffman_tree a → huffman_tree b →
  cost (leaf_depths (merged a b) 0) =
  cost (leaf_depths a 0) + cost (leaf_depths b 0) + freq a + freq b.
Proof.
  intros Ha Hb. simpl. rewrite cost_app, !cost_leaf_depths_S.
  rewrite <-!huffman_tree_freq_total by done. lia.
Qed.

Lemma greedy_hmerge heap r :
  greedy heap r → Forall huffman_tree heap →
  ∃ c, hmerge (freq <$> heap) c ∧ cost (leaf_depths r 0) = c + forest_cost heap.
Proof.
  induction 1 as [r|heap heap' a b rest r Hperm Ha Hb Hperm' _ IH]; intros Hall.
  { exists 0. split; [constructor|]. simpl. lia. }
  rewrite Hperm in Hall.
  apply Forall_cons in Hall as [Hta Hall]. apply Forall_cons in Hall as [Htb Hall].
  destruct IH as (c & Hc & Hcost).
  { rewrite Hperm'. apply Forall_cons. split; [|done]. by constructor. }
  exists (c + freq a + freq b). split.
  - eapply (hmerge_step _ (freq <$> heap') (freq a) (freq b) (freq <$> rest)).
    + by rewrite Hperm.
    + intros x Hx. change (freq b :: (freq <$> rest)) with (freq <$> b :: rest) in Hx.
      apply list_elem_of_fmap in Hx as [y [-> Hy]]. by apply Ha.
    + intros x [y [-> Hy]]%list_elem_of_fmap. by apply Hb.
    + by rewrite Hperm'.
    + done.
  - rewrite Hcost, (forest_cost_perm _ _ Hperm'), (forest_cost_perm _ _ Hperm).
    simpl. pose proof (cost_merged a b Hta Htb) as Hm. simpl in Hm. lia.
Qed.

Lemma weighted_length_app codes frequency1 frequency2 :
  weighted_length codes (frequency1 ++ frequency2) =
  weighted_length codes frequency1 + weighted_length codes frequency2.
Proof. induction frequency1 as [|[c k] ? IH]; simpl in *; lia. Qed.

Lemma weighted_length_perm codes frequency1 frequency2 :
  frequency1 ≡ₚ frequency2 →
  weighted_length codes frequency1 = weighted_length codes frequency2.
Proof. induction 1 as [|[??]|[??] [??]|]; simpl in *; lia. Qed.

(** With the codes of a tree, count times code length adds up to the cost of
    the tree. *)
Lemma weighted_length_cost codes u current_code :
  huffman_tree u →
  (∀ c p, (c, p) ∈ code_table u current_code → codes !! c = Some p) →
  weighted_length codes (leaf_items u) = cost (leaf_depths u (length current_code)).
Proof.
  intros Hu. revert current_code.
  induction Hu as [c f|f l r _ IHl _ IHr _]; intros current_code Hcodes.
  - simpl. unfold code_length. rewrite (Hcodes c current_code); [simpl; lia|].
    simpl. by apply list_elem_of_singleton.
  - simpl. rewrite weighted_length_app, cost_app.
    rewrite (IHl (current_code ++ str "0")), (IHr (current_code ++ str "1")).
    + rewrite !length_app. simpl. by rewrite !Nat.add_1_r.
    + intros c p Hin. apply Hcodes. cbn [code_table app]. apply elem_of_app. by right.
    + intros c p Hin. apply Hcodes. cbn [code_table app]. apply elem_of_app. by left.
Qed.

Lemma encode_Ok_length codes text e :
  encode codes text = Ok e →
  Z.of_nat (length e) = weighted_length codes (frequency_of text).
Proof.
  intros He. unfold frequency_of. rewrite weighted_length_foldl. simpl.
  assert (e = text ≫= λ c, default [] (codes !! c)) as ->; [|lia].
  revert e He. induction text as [|c text IH]; intros e He; simpl in He.
  { by injection He as <-. }
  destruct (codes !! c) as [p|] eqn:Hc; [|done].
  destruct (encode codes text) as [e'| |]; [|done..].
  injection He as <-. rewrite bind_cons, Hc. simpl. by rewrite <-(IH e').
Qed.

(** The length of the compressed string is the cost of the tree, and no tree
    over the same table costs less. *)
Lemma compress_cost_least text self encoded self' u :
  compress text self = (Ok encoded, self') →
  huffman_tree u → leaf_items u ≡ₚ frequency_of text →
  Z.of_nat (length encoded) ≤ cost (leaf_depths u 0).
Proof.
  intros Hrun Hu Hleaves.
  pose proof Hrun as (Hne & r & self0 & Htree & Hcodes & Henc)%compress_inv.
  destruct (build_tree_merges_least (frequency_of text) self)
    as (r' & heap & _ & Htree' & Hgreedy & Hperm); [by rewrite frequency_of_nil|].
  rewrite Htree in Htree'. injection Htree' as -> ->.
  pose proof Htree as (_ & _ & Hr & Hsym & _)%build_tree_inv.
  apply build_tree_leaf_items in Htree as [Hleaves' _].
  rewrite build_codes_eq in Hcodes. injection Hcodes as <-.
  apply encode_Ok_length in Henc.
  rewrite <-(weighted_length_perm _ _ _ Hleaves') in Henc.
  rewrite (weighted_length_cost _ r' [] Hr) in Henc.
  2:{ intros c p Hin. apply foldl_assign_codes; [|done].
      rewrite code_table_symbols, Hsym. apply frequency_of_keys. }
  simpl in Henc.
  destruct (greedy_hmerge heap r' Hgreedy) as (c & Hmerge & Hcost).
  { rewrite Hperm. apply Forall_fmap, Forall_forall. intros [ch k] _. constructor. }
  assert (forest_cost heap = 0) as Hzero.
  { rewrite (forest_cost_perm _ _ Hperm). clear.
    induction (frequency_of text) as [|[ch k] ? IH]; [done|].
    rewrite fmap_cons. unfold forest_cost in *. cbn [foldr]. rewrite IH.
    unfold leaf_of, cost. cbn [leaf_depths app foldr fst snd]. lia. }
  assert (c ≤ cost (leaf_depths u 0)); [|lia].
  apply (hmerge_least _ _ Hmerge).
  - exists (shape_of u). by rewrite leaf_depths_shape.
  - rewrite leaf_depths_weights, Hleaves, Hperm. clear.
    induction (frequency_of text) as [|[ch k] ? IH]; [done|]. simpl. by rewrite IH.
Qed.

(** No tree over the same frequency table encodes the text in fewer bits:
    for every tree [u] of leaves and merged nodes whose leaves are the
    entries of the table, the text encoded with the codes of [u] is at least
    as long as the string [compress] returns. *)
Theorem compress_optimal text self encoded self' u :
  compress text self = (Ok encoded, self') →
  huffman_tree u → leaf_items u ≡ₚ frequency_of text →
  ∃ e, encode (codes (build_codes u init).2) text = Ok e ∧
       (length encoded ≤ length e)%nat.
Proof.
  intros Hrun Hu Hleaves.
  pose proof (compress_cost_least _ _ _ _ u Hrun Hu Hleaves) as Hleast.
  destruct (frequency_of_keys text) as [Hnd Hkeys].
  assert (symbols u ≡ₚ (frequency_of text).*1) as Hsymu.
  { rewrite <-Hleaves. clear. induction u as [|char f l IHl r IHr]; [done|].
    simpl. rewrite !fmap_app, IHl, IHr. by destruct char. }
  rewrite build_codes_eq. cbn [snd].
  set (cu := codes (foldl assign init (code_table u []))).
  assert (∀ c p, (c, p) ∈ code_table u [] → cu !! c = Some p) as Hcu.
  { intros c p Hin. apply foldl_assign_codes; [|done].
    by rewrite code_table_symbols, Hsymu. }
  destruct (encode cu text) as [e| |] eqn:He.
  2,3: rewrite encode_total in He; [done|]; intros c Hc; apply Hkeys in Hc;
       rewrite <-Hsymu, <-(code_table_symbols u []) in Hc;
       apply list_elem_of_fmap in Hc as ([c' p] & -> & Hin); exists p; by apply Hcu.
  exists e. split; [done|].
  apply encode_Ok_length in He.
  rewrite <-(weighted_length_perm _ _ _ Hleaves) in He.
  rewrite (weighted_length_cost cu u [] Hu Hcu) in He. simpl in He. lia.
Qed.

Lemma compress_optimal_witness :
  ∃ e, encode (codes (build_codes
         (HuffmanNode None 8
            (HuffmanNode None 6 (HuffmanNode (Some "a"%char) 4 NoneNode NoneNode)
                                (HuffmanNode (Some "b"%char) 2 NoneNode NoneNode))
            (HuffmanNode None 2 (HuffmanNode (Some "c"%char) 1 NoneNode NoneNode)
                                (HuffmanNode (Some "d"%char) 1 NoneNode NoneNode)))
         init).2) (str "abacabad") = Ok e ∧
       (length (str "01001100100111") ≤ length e)%nat.
Proof.
  eapply (compress_optimal (str "abacabad") init).
  - vm_compute. reflexivity.
  - repeat constructor.
  - vm_compute. reflexivity.
Defined.


(** ** At most [k] bits per character for [2 ^ k] distinct characters *)

Lemma balanced_spec k items d :
  (1 ≤ length items ≤ 2 ^ k)%nat →
  huffman_tree (balanced k items) ∧ leaf_items (balanced k items) = items ∧
  Forall (λ p, p.2 ≤ d + k)%nat (leaf_depths (balanced k items) d).
Proof.
  revert items d. induction k as [|k IH]; intros items d Hlen.
  - destruct items as [|[c f] [|??]]; simpl in Hlen; try lia.
    split; [constructor|]. split; [done|]. apply Forall_singleton. simpl. lia.
  - destruct items as [|[c f] [|item items]]; [simpl in Hlen; lia| |].
    { split; [constructor|]. split; [done|]. apply Forall_singleton. simpl. lia. }
    remember ((c, f) :: item :: items) as l eqn:Hl.
    assert (2 ≤ length l)%nat as H2 by (subst l; simpl; lia).
    assert (balanced (S k) l =
            merged (balanced k (take (length l / 2) l)) (balanced k (drop (length l / 2) l)))
      as -> by (by subst l).
    pose proof (Nat.div_mod_eq (length l) 2) as Hdiv.
    pose proof (Nat.mod_upper_bound (length l) 2 ltac:(done)) as Hmod.
    rewrite Nat.pow_succ_r' in Hlen.
    destruct (IH (take (length l / 2) l) (S d)) as (Ht1 & Hi1 & Hd1).
    { rewrite length_take. lia. }
    destruct (IH (drop (length l / 2) l) (S d)) as (Ht2 & Hi2 & Hd2).
    { rewrite length_drop. lia. }
    split; [by constructor|]. split.
    + unfold merged. cbn [leaf_items app]. by rewrite Hi1, Hi2, take_drop.
    + unfold merged. cbn [leaf_depths app]. apply Forall_app. split.
      * eapply Forall_impl; [apply Hd1|]. simpl. lia.
      * eapply Forall_impl; [apply Hd2|]. simpl. lia.
Qed.

Lemma cost_depth_bound u d k :
  (∀ item, item ∈ leaf_items u → 0 ≤ item.2) →
  Forall (λ p, p.2 ≤ k)%nat (leaf_depths u d) →
  cost (leaf_depths u d) ≤ Z.of_nat k * total (leaf_items u).
Proof.
  revert d. induction u as [|char f l IHl r IHr]; intros d Hpos Hall.
  { unfold cost, total. simpl. lia. }
  cbn [leaf_depths leaf_items] in *. rewrite !cost_app, !total_app.
  apply Forall_app in Hall as [Hhere Hall]. apply Forall_app in Hall as [Hl Hr].
  assert (cost (leaf_depths l (S d)) ≤ Z.of_nat k * total (leaf_items l)).
  { apply IHl; [|done]. intros item Hin. apply Hpos. rewrite !elem_of_app. auto. }
  assert (cost (leaf_depths r (S d)) ≤ Z.of_nat k * total (leaf_items r)).
  { apply IHr; [|done]. intros item Hin. apply Hpos. rewrite !elem_of_app. auto. }
  destruct char as [c|]; unfold cost at 1, total at 1; cbn [foldr fst snd]; [|lia].
  rewrite Forall_singleton in Hhere. cbn [snd] in Hhere.
  assert (0 ≤ f) by (apply (Hpos (c, f)); rewrite !elem_of_app; left; by left).
  assert (f * Z.of_nat d ≤ Z.of_nat k * f) by nia.
  lia.
Qed.

Lemma compress_bits_bound text self encoded self' k :
  compress text self = (Ok encoded, self') →
  (length (frequency_of text) ≤ 2 ^ k)%nat →
  (length encoded ≤ k * length text)%nat.
Proof.
  intros Hrun Hk. pose proof Hrun as [Hne _]%compress_inv.
  assert (1 ≤ length (frequency_of text))%nat as H1.
  { destruct (frequency_of text) eqn:Hf; [|simpl; lia]. by apply frequency_of_nil in Hf. }
  destruct (balanced_spec k (frequency_of text) 0) as (Hu & Hitems & Hdepth); [lia|].
  pose proof (compress_cost_least _ _ _ _ _ Hrun Hu) as Hleast.
  rewrite Hitems in Hleast. specialize (Hleast (reflexivity _)).
  pose proof (cost_depth_bound (balanced k (frequency_of text)) 0 k) as Hbound.
  rewrite Hitems, total_frequency_of in Hbound.
  assert (cost (leaf_depths (balanced k (frequency_of text)) 0)
          ≤ Z.of_nat k * Z.of_nat (length text)); [|lia].
  apply Hbound; [|done]. intros [c n] Hin.
  destruct (frequency_of_spec text c n self) as (_ & _ & Hge). specialize (Hge Hin).
  simpl. lia.
Qed.

(** When the text has at most [2 ^ k] distinct characters, the compressed
    string has at most [k] bits for each character of the text. *)
Theorem compress_bits_per_char text self encoded self' k :
  compress text self = (Ok encoded, self') →
  (length (frequency_of text) ≤ 2 ^ k)%nat →
  (length encoded ≤ k * length text)%nat.
Proof. apply compress_bits_bound. Qed.

Lemma compress_bits_per_char_witness :
  (length (str "01001100100111") ≤ 2 * length (str "abacabad"))%nat.
Proof.
  eapply (compress_bits_per_char (str "abacabad") init).
  - vm_compute. reflexivity.
  - vm_compute. lia.
Defined.


(** * The handlers of [HuffmanApp] *)

Lemma handle_compression_eq app encoded h' :
  radio_text app = true → text_input app ≠ [] →
  compress (text_input app) (huffman app) = (Ok encoded, h') →
  handle_compression app =
  (Ok NoMessage,
   {| huffman := h'; text_input := text_input app; radio_text := radio_text app;
      character_count_label := character_count_label app;
      word_count_label := word_count_label app;
      frequency_label := frequency_of (text_input app);
      result_label :=
        str "Compressed: " ++ take 50 encoded
        ++ String.list_ascii_of_string ("..." ++ String "010" "Decompressed: ")
        ++ (foldl (decompress_step (reverse_mapping h')) ([], []) encoded).2;
      tree_window := tree_window app |}).
Proof.
  intros Hradio Htext Hcomp. unfold handle_compression.
  rewrite Hradio, bool_decide_eq_false_2 by done.
  unfold mbind, AM_bind, call, display_frequencies, set_result_label, mret, AM_ret.
  cbn [build_frequency_dict mret M_ret huffman]. rewrite Hcomp.
  cbn [decompress huffman]. by rewrite ?Hradio.
Qed.

Lemma show_huffman_tree_eq app :
  root (huffman app) ≠ NoneNode →
  show_huffman_tree app =
  (Ok NoMessage,
   {| huffman := huffman app; text_input := text_input app;
      radio_text := radio_text app;
      character_count_label := character_count_label app;
      word_count_label := word_count_label app;
      frequency_label := frequency_label app; result_label := result_label app;
      tree_window := Some (default (root (huffman app)) (tree_window app)) |}).
Proof.
  intros Hroot. unfold show_huffman_tree.
  destruct (root (huffman app)); [done|]. by destruct (tree_window app).
Qed.

Ltac app_fields :=
  cbn [huffman text_input radio_text character_count_label word_count_label
       frequency_label result_label tree_window edit_text update_counts
       start_new_compression].

Lemma AM_bind_Ok {A B} (m : AM A) (f : A → AM B) app a app' :
  m app = (Ok a, app') → (m ≫= f) app = f a app'.
Proof. intros Hm. unfold mbind, AM_bind. by rewrite Hm. Qed.

(** No exception escapes [handle_compression]: it warns and changes nothing
    in file mode or on an empty text, and otherwise shows the frequency table
    of the text and sets the result label. *)
Theorem handle_compression_returns app :
  ∃ msg app', handle_compression app = (Ok msg, app') ∧
    (radio_text app = false ∨ text_input app = [] →
     app' = app ∧ ∃ text, msg = Warning text) ∧
    (radio_text app = true → text_input app ≠ [] →
     msg = NoMessage ∧ frequency_label app' = frequency_of (text_input app) ∧
     huffman app' = (compress (text_input app) (huffman app)).2 ∧
     text_input app' = text_input app ∧ tree_window app' = tree_window app ∧
     ∃ encoded decoded,
       (compress (text_input app) (huffman app)).1 = Ok encoded ∧
       (decompress encoded (huffman app')).1 = Ok decoded ∧
       result_label app' =
         str "Compressed: " ++ take 50 encoded
         ++ String.list_ascii_of_string ("..." ++ String "010" "Decompressed: ")
         ++ decoded).
Proof.
  unfold handle_compression. destruct (radio_text app) eqn:Hradio.
  2:{ eexists _, _. split; [done|]. split; [eauto|done]. }
  case_bool_decide as Htext.
  { eexists _, _. split; [done|]. split; [eauto|done]. }
  destruct (compress_Ok (text_input app) (huffman app) Htext)
    as (encoded & h' & Hcomp & _).
  unfold mbind, AM_bind, call, display_frequencies, set_result_label, mret, AM_ret.
  cbn [build_frequency_dict mret M_ret huffman]. rewrite Hcomp.
  cbn [decompress huffman].
  eexists _, _. split; [done|]. split; [by intros [|]|]. intros _ _.
  split_and!; [done..|]. eexists encoded, _. split_and!; reflexivity.
Qed.

(** After "New Compression", whatever the window held before, entering a
    text of at least two distinct characters and pressing "Compress" shows,
    in text mode, that text as the decompressed one; in file mode it only
    warns and the result label stays as "New Compression" left it. *)
Theorem new_compression_restores_roundtrip app text :
  (2 ≤ length (frequency_of text))%nat →
  ∃ msg app',
    (start_new_compression;; edit_text text;; handle_compression) app
      = (Ok msg, app') ∧
    character_count_label app' = length text ∧
    (radio_text app = true →
     msg = NoMessage ∧
     ∃ encoded,
       (compress text init).1 = Ok encoded ∧
       result_label app' =
         str "Compressed: " ++ take 50 encoded
         ++ String.list_ascii_of_string ("..." ++ String "010" "Decompressed: ")
         ++ text) ∧
    (radio_text app = false →
     msg = Warning "Use the file selection button to compress a document!" ∧
     result_label app' = str "Result: " ∧ huffman app' = init).
Proof.
  intros Hlen.
  destruct (roundtrip_fresh text Hlen) as [h' Hround].
  assert (text ≠ []) as Hne by (intros ->; vm_compute in Hlen; lia).
  destruct (compress_Ok text init Hne) as (encoded & h1 & Hcomp & _).
  unfold roundtrip, mbind, M_bind in Hround. rewrite Hcomp in Hround.
  unfold decompress in Hround. injection Hround as Hdec _.
  rewrite (AM_bind_Ok start_new_compression _ app NoMessage _ eq_refl). app_fields.
  rewrite (AM_bind_Ok (edit_text text) _ _ () _ eq_refl). app_fields.
  destruct (radio_text app) eqn:Hradio.
  - erewrite (handle_compression_eq _ encoded h1);
      [|reflexivity|exact Hne|exact Hcomp].
    app_fields. rewrite Hdec. eexists _, _. split; [reflexivity|].
    split; [reflexivity|]. split; [|done]. intros _. split; [reflexivity|].
    exists encoded. by rewrite Hcomp.
  - unfold handle_compression. app_fields.
    eexists _, _. split; [reflexivity|]. split; [reflexivity|]. by split.
Qed.

Lemma new_compression_restores_roundtrip_witness :
  ∃ msg app',
    (start_new_compression;; edit_text (str "abc");; handle_compression)
      {| huffman := (compress (str "xyz") init).2; text_input := str "xyz";
         radio_text := true; character_count_label := 3; word_count_label := 1;
         frequency_label := []; result_label := []; tree_window := None |}
      = (Ok msg, app') ∧
    character_count_label app' = length (str "abc") ∧
    (true = true →
     msg = NoMessage ∧
     ∃ encoded,
       (compress (str "abc") init).1 = Ok encoded ∧
       result_label app' =
         str "Compressed: " ++ take 50 encoded
         ++ String.list_ascii_of_string ("..." ++ String "010" "Decompressed: ")
         ++ str "abc") ∧
    (true = false →
     msg = Warning "Use the file selection button to compress a document!" ∧
     result_label app' = str "Result: " ∧ huffman app' = init).
Proof.
  apply (new_compression_restores_roundtrip
           {| huffman := (compress (str "xyz") init).2; text_input := str "xyz";
              radio_text := true; character_count_label := 3; word_count_label := 1;
              frequency_label := []; result_label := []; tree_window := None |}
           (str "abc")).
  vm_compute. lia.
Defined.

(** The [try] block of [handle_file_selection] lets no exception out: for an
    empty document it shows the box of the [IndexError], after having shown
    an empty frequency table and without touching the coder or the result
    label; for any other text it shows the frequency table and sets the
    result label to the first 50 characters of the compressed and of the
    decompressed string. *)
Theorem handle_file_text_returns text app :
  ∃ msg app', handle_file_text text app = (Ok msg, app') ∧
    (text = [] → msg = Critical IndexError ∧ huffman app' = huffman app ∧
                 result_label app' = result_label app ∧ frequency_label app' = []) ∧
    (text ≠ [] → msg = NoMessage ∧ frequency_label app' = frequency_of text ∧
                 huffman app' = (compress text (huffman app)).2 ∧
                 ∃ encoded decoded,
                   (compress text (huffman app)).1 = Ok encoded ∧
                   (decompress encoded (huffman app')).1 = Ok decoded ∧
                   result_label app' =
                     str "Compressed: " ++ take 50 encoded
                     ++ String.list_ascii_of_string ("..." ++ String "010" "Decompressed: ")
                     ++ take 50 decoded ++ str "...").
Proof.
  destruct text as [|c text].
  { eexists _, _. split; [done|]. split; [done|]. by intros []. }
  destruct (compress_Ok (c :: text) (huffman app)) as (encoded & h' & Hcomp & _);
    [done|].
  unfold handle_file_text.
  unfold mbind, AM_bind, call, display_frequencies, set_result_label, mret, AM_ret.
  cbn [build_frequency_dict mret M_ret huffman]. rewrite Hcomp.
  cbn [decompress huffman].
  eexists _, _. split; [done|]. split; [done|]. intros _.
  split_and!; [done..|]. eexists encoded, _. split_and!; reflexivity.
Qed.

(** [show_compression_ratio] lets no exception out; when it shows the sizes,
    the original size is eight times the length of the text and positive (so
    the quotient is defined), and the compressed size is at least zero, is
    zero for one distinct character, is at least the length of the text for
    two or more, and is at most [k] times the length of the text when there
    are at most [2 ^ k] distinct characters. *)
Theorem show_compression_ratio_sizes app :
  ∃ msg app', show_compression_ratio app = (Ok msg, app') ∧
    ∀ original_size compressed_size,
      msg = Information original_size compressed_size →
      let text := text_input app in
      original_size = 8 * Z.of_nat (length text) ∧ 0 < original_size ∧
      0 ≤ compressed_size ∧
      (length (frequency_of text) = 1%nat → compressed_size = 0) ∧
      ((2 ≤ length (frequency_of text))%nat → Z.of_nat (length text) ≤ compressed_size) ∧
      (∀ k, (length (frequency_of text) ≤ 2 ^ k)%nat →
            compressed_size ≤ Z.of_nat k * Z.of_nat (length text)).
Proof.
  unfold show_compression_ratio. case_bool_decide as Hcodes.
  { eexists _, _. split; [done|]. by intros. }
  destruct (radio_text app); [|eexists _, _; split; [done|]; by intros].
  case_bool_decide as Htext.
  { eexists _, _. split; [done|]. by intros. }
  destruct (compress_Ok (text_input app) (huffman app) Htext)
    as (encoded & h' & Hcomp & _).
  unfold mbind, AM_bind, call, mret, AM_ret. rewrite Hcomp.
  eexists _, _. split; [done|]. intros o c [= <- <-]. cbv zeta.
  destruct (compress_length_bounds _ _ _ _ Hcomp) as [_ Hbounds].
  destruct (text_input app) as [|ch text] eqn:Htxt; [done|].
  split; [lia|]. split; [simpl; lia|]. split; [lia|]. split; [|split].
  - intros Hone. destruct (compress_one_symbol _ (huffman app) Hone) as (? & Hc' & _).
    rewrite Hcomp in Hc'. by injection Hc' as ->.
  - intros Htwo. apply Hbounds in Htwo. lia.
  - intros k Hk. pose proof (compress_bits_bound _ _ _ _ k Hcomp Hk). lia.
Qed.

(** The tree window is made of the first tree it is asked to show: after a
    second text is compressed, "Show Huffman Tree" still holds the tree of
    the first text (its root counts the characters of the first text), while
    the coder holds the tree of the second. *)
Theorem tree_window_keeps_first_tree app text1 text2 :
  radio_text app = true → tree_window app = None →
  text1 ≠ [] → text2 ≠ [] →
  ∃ app' window,
    (edit_text text1;; handle_compression;; show_huffman_tree;;
     edit_text text2;; handle_compression;; show_huffman_tree) app
      = (Ok NoMessage, app') ∧
    tree_window app' = Some window ∧
    freq window = Z.of_nat (length text1) ∧
    freq (root (huffman app')) = Z.of_nat (length text2).
Proof.
  intros Hradio Hwindow Hne1 Hne2.
  destruct (compress_Ok text1 (huffman app) Hne1) as (enc1 & h1 & Hcomp1 & _).
  destruct (compress_Ok text2 h1 Hne2) as (enc2 & h2 & Hcomp2 & _).
  pose proof (compress_root _ _ _ _ Hcomp1) as Hroot1.
  pose proof (compress_root _ _ _ _ Hcomp2) as Hroot2.
  assert (∀ h (n : pystr),
            freq (root h) = Z.of_nat (length n) → n ≠ [] → root h ≠ NoneNode)
    as Hsome.
  { intros h n Hf Hn Hnone. rewrite Hnone in Hf. destruct n; [done|]. simpl in Hf. lia. }
  pose proof (Hsome _ _ Hroot1 Hne1) as Hr1. pose proof (Hsome _ _ Hroot2 Hne2) as Hr2.
  eexists _, (root h1).
  rewrite (AM_bind_Ok (edit_text text1) _ _ () _ eq_refl). app_fields.
  erewrite (AM_bind_Ok handle_compression);
    [|apply (handle_compression_eq _ enc1 h1); [exact Hradio|exact Hne1|exact Hcomp1]].
  app_fields.
  erewrite (AM_bind_Ok show_huffman_tree);
    [|apply show_huffman_tree_eq; exact Hr1].
  app_fields. rewrite Hwindow. cbn [default].
  rewrite (AM_bind_Ok (edit_text text2) _ _ () _ eq_refl). app_fields.
  erewrite (AM_bind_Ok handle_compression);
    [|apply (handle_compression_eq _ enc2 h2); [exact Hradio|exact Hne2|exact Hcomp2]].
  app_fields.
  erewrite show_huffman_tree_eq; [|exact Hr2].
  app_fields. cbn [default].
  split; [reflexivity|]. split; [reflexivity|]. by split.
Qed.

Lemma tree_window_keeps_first_tree_witness :
  ∃ app' window,
    (edit_text (str "aab");; handle_compression;; show_huffman_tree;;
     edit_text (str "xyzzy");; handle_compression;; show_huffman_tree)
      {| huffman := init; text_input := []; radio_text := true;
         character_count_label := 0; word_count_label := 0;
         frequency_label := []; result_label := str "Result: "; tree_window := None |}
      = (Ok NoMessage, app') ∧
    tree_window app' = Some window ∧
    freq window = Z.of_nat (length (str "aab")) ∧
    freq (root (huffman app')) = Z.of_nat (length (str "xyzzy")).
Proof. by apply tree_window_keeps_first_tree. Defined.


Lemma split_from_spec word text :
  Forall (λ c, isspace c = false) word →
  mjoin (split_from word text) = word ++ filter (λ c, isspace c = false) text ∧
  Forall (λ w, w ≠ [] ∧ Forall (λ c, isspace c = false) w) (split_from word text) ∧
  (2 * length (split_from word text)
   ≤ length text + match word with [] => 1 | _ => 2 end)%nat.
Proof.
  revert word. induction text as [|c text IH]; intros word Hword.
  { destruct word as [|w word]; simpl.
    - split; [done|]. split; [constructor|lia].
    - rewrite !app_nil_r. split; [done|]. split; [|lia].
      apply Forall_singleton. done. }
  cbn [split_from]. rewrite filter_cons. destruct (isspace c) eqn:Hc.
  - rewrite decide_False by done.
    destruct (IH [] (Forall_nil_2 _)) as (Hjoin & Hall & Hlen). simpl in Hjoin.
    destruct word as [|w word].
    + split; [done|]. split; [done|]. simpl in *. lia.
    + split; [simpl; by rewrite Hjoin|]. split; [|simpl in *; lia].
      apply Forall_cons. done.
  - rewrite decide_True by done.
    destruct (IH (word ++ [c])) as (Hjoin & Hall & Hlen).
    { apply Forall_app. split; [done|]. by apply Forall_singleton. }
    split; [by rewrite Hjoin, <-(assoc_L (++))|]. split; [done|].
    destruct word; simpl in *; lia.
Qed.

(** [update_counts] shows the length of the text and the number of its words;
    the words are non-empty, hold no whitespace and, joined, are the text
    without its whitespace, and there are at most half as many words as
    characters, rounded up. *)
Theorem update_counts_words app :
  ∃ app', update_counts app = (Ok (), app') ∧
    character_count_label app' = length (text_input app) ∧
    word_count_label app' = length (split (text_input app)) ∧
    mjoin (split (text_input app))
      = filter (λ c, isspace c = false) (text_input app) ∧
    Forall (λ w, w ≠ [] ∧ Forall (λ c, isspace c = false) w) (split (text_input app)) ∧
    (2 * word_count_label app' ≤ character_count_label app' + 1)%nat ∧
    huffman app' = huffman app ∧ text_input app' = text_input app.
Proof.
  eexists. split; [done|]. cbn [character_count_label word_count_label huffman text_input].
  destruct (split_from_spec [] (text_input app) (Forall_nil_2 _)) as (Hjoin & Hall & Hlen).
  unfold split. by rewrite Hjoin.
Qed.
